(** * Queueing simulator: arrival sampler, dispatch engine and steady-state
    calculators

    The two JavaScript variants of the simulator (M/M/c in [index.js], M/G/c in
    the Gamma-service variant) share [factorial], [roundTo], [cpCalc],
    [generateInterarrivals] and [simulateQueue] text for text; the calculators
    differ ([calculateMM1Params], [calculateMultiServerParams] in the first,
    [calculateMG1Params], [calculateMGCParams], [calculateMMcParams] in the
    second).

    Every JavaScript value the core handles is a Number.  The functions are
    therefore written once over an interface [Number] of the arithmetic they
    use.  What depends on control flow alone (counts, lengths, the shape of
    the cumulative table, the arrival trace) is proved for every carrier.  The
    interface is read at three carriers:
    - binary64 ([PrimFloat.float]): the arithmetic JavaScript runs,
      executable; used to evaluate the program on concrete inputs;
    - [Q]: rational arithmetic without rounding, executable.  It idealises
      binary64: the theorems proved over it about the dispatch engine state
      orders, bounds and identities to two decimals, which the last bit of a
      sum does not decide; the closed forms of the calculators are stated over
      it as the formulas the code evaluates;
    - [R]: real arithmetic, where [Math.exp] and [Math.log] are the real
      functions; used to tie the computed table to the Poisson law where no
      rounding, overflow or underflow occurs.
    Counts, indices and server numbers are integers in the source and are [nat]
    or [Z] here. *)

From Stdlib Require Import List Sorted Bool Arith ZArith Lia.
From Stdlib Require Import QArith Qround Qpower.
From Stdlib Require Import Reals Lra.
From Stdlib Require Import Floats.
Import ListNotations.

Set Implicit Arguments.

(* ================================================================== *)
(** * Part I: the program *)
(* ================================================================== *)

(** ** The arithmetic of JavaScript Numbers, as an interface *)

Class Number : Type := {
  num : Type;
  (** an integer literal, or an integer loop counter used as a Number *)
  lit : Z -> num;
  jadd : num -> num -> num;
  jsub : num -> num -> num;
  jmul : num -> num -> num;
  jdiv : num -> num -> num;
  jneg : num -> num;
  (** [a < b], [a <= b], [a === b] *)
  jlt : num -> num -> bool;
  jle : num -> num -> bool;
  jeq : num -> num -> bool;
  Math_max : num -> num -> num;
  Math_min : num -> num -> num;
  Math_round : num -> num;
  (** what arithmetic sees when an array is read outside its bounds *)
  undefined : num
}.

(** [Math.exp] is kept apart: only the real carrier has it. *)
Class Exponential (N : Number) : Type := Math_exp : num -> num.

Declare Scope js_scope.
Delimit Scope js_scope with js.
Infix "+" := jadd : js_scope.
Infix "-" := jsub : js_scope.
Infix "*" := jmul : js_scope.
Infix "/" := jdiv : js_scope.
Notation "- x" := (jneg x) : js_scope.
Infix "<?" := jlt : js_scope.
Infix "<=?" := jle : js_scope.
Infix "=?" := jeq : js_scope.
(** [a > b] and [a >= b] are [b < a] and [b <= a], also on NaN. *)
Notation "x >? y" := (jlt y x) : js_scope.
Notation "x >=? y" := (jle y x) : js_scope.

Section Core.

Context {N : Number}.
Local Open Scope js_scope.

(** *** Utilities *)

(** [Math.pow(x, n)] and [x ** n] at a natural exponent. *)
Fixpoint Math_pow (x : num) (n : nat) : num :=
  match n with
  | O => lit 1
  | S k => x * Math_pow x k
  end.

(** [factorial(n)]: 1 for [n <= 1], else the product accumulated by
    [for (i = 2; i <= n; i++) result *= i].  (The first variant also answers
    [null] below zero, which a count never is.) *)
Definition factorial (n : nat) : num :=
  if (n <=? 1)%nat then lit 1
  else fold_left (fun result i => result * lit (Z.of_nat i)) (seq 2 (n - 1)) (lit 1).

(** [roundTo(value, decimals)] *)
Definition roundTo (value : num) (decimals : nat) : num :=
  Math_round (value * Math_pow (lit 10) decimals) / Math_pow (lit 10) decimals.

(** [a[i]] and [a[i] = v] on a JavaScript array: a read outside the array is
    [undefined], a write outside extends the array, leaving holes. *)
Definition aget (a : list num) (i : nat) : num := nth i a undefined.

Fixpoint aset (a : list num) (i : nat) (v : num) : list num :=
  match a, i with
  | [], O => [v]
  | [], S k => undefined :: aset [] k v
  | _ :: t, O => v :: t
  | h :: t, S k => h :: aset t k v
  end.

(** *** The queue simulation engine: [simulateQueue] *)

(** One row of the parallel arrays [simulateQueue] fills: the customer record
    of the i-th arrival. *)
Record Customer : Type := {
  arrivalTime : num;
  serviceTime : num;
  startTime : num;
  endTime : num;
  waitTime : num;
  turnaroundTime : num;
  responseTime : num;
  assignedServer : nat;
  queueLength : Z
}.

(** The first loop, from [i = 1]: the running sum of the gaps, each value
    pushed after rounding. *)
Fixpoint cumulate (currentTime : num) (gaps : list num) : list num :=
  match gaps with
  | [] => []
  | g :: rest =>
      let currentTime := currentTime + g in
      roundTo currentTime 2 :: cumulate currentTime rest
  end.

(** [arrivalTimes] starts as [[0]]; [interarrivals[0]] is never read. *)
Definition arrivals (interarrivals : list num) : list num :=
  lit 0 :: cumulate (lit 0) (tl interarrivals).

(** The scan [for (s = 1; s < serverCount; s++)] for the server that is free
    first: a later server replaces the current choice only when strictly
    earlier. *)
Definition scanServer (serverEndTimes : list num) (best : nat * num) (s : nat)
    : nat * num :=
  let (serverIndex, earliestEndTime) := best in
  if aget serverEndTimes s <? earliestEndTime
  then (s, aget serverEndTimes s)
  else (serverIndex, earliestEndTime).

Definition selectServer (serverEndTimes : list num) (serverCount : nat) : nat :=
  fst (fold_left (scanServer serverEndTimes) (seq 1 (serverCount - 1))
         (O, aget serverEndTimes 0)).

(** [queuedCustomers]: the servers whose end time lies after the arrival. *)
Definition queuedCustomers (serverEndTimes : list num) (serverCount : nat)
    (arrival : num) : nat :=
  length (filter (fun s => aget serverEndTimes s >? arrival) (seq 0 serverCount)).

(** The body of the main loop for one arrival: the row pushed and the server
    table after the update. *)
Definition dispatch (serverCount : nat) (serverEndTimes : list num)
    (arrival service : num) : Customer * list num :=
  let serverIndex := selectServer serverEndTimes serverCount in
  let start := Math_max arrival (aget serverEndTimes serverIndex) in
  let finish := start + service in
  let wait := Math_max (lit 0) (start - arrival) in
  let turnaround := finish - arrival in
  let currentQueueLength :=
    Z.max 0 (Z.of_nat (queuedCustomers serverEndTimes serverCount arrival)
             - Z.of_nat serverCount) in
  ({| arrivalTime := arrival;
      serviceTime := service;
      startTime := roundTo start 2;
      endTime := roundTo finish 2;
      waitTime := roundTo wait 2;
      turnaroundTime := roundTo turnaround 2;
      responseTime := roundTo (wait + service) 2;
      assignedServer := serverIndex + 1;
      queueLength := currentQueueLength |},
   aset serverEndTimes serverIndex finish).

(** The main loop over [arrivalTimes]; [serviceTimes[i]] is the head of what is
    left of [serviceTimes], [undefined] once it is exhausted. *)
Fixpoint serve (serverCount : nat) (serverEndTimes : list num)
    (arrivalTimes serviceTimes : list num) : list Customer :=
  match arrivalTimes with
  | [] => []
  | arrival :: rest =>
      let (row, serverEndTimes') :=
        dispatch serverCount serverEndTimes arrival (hd undefined serviceTimes) in
      row :: serve serverCount serverEndTimes' rest (tl serviceTimes)
  end.

(** [serverEndTimes] as the main loop leaves it after the given arrivals: the
    next-available time of every server. *)
Fixpoint serverEndTimesAfter (serverCount : nat) (serverEndTimes : list num)
    (arrivalTimes serviceTimes : list num) : list num :=
  match arrivalTimes with
  | [] => serverEndTimes
  | arrival :: rest =>
      serverEndTimesAfter serverCount
        (snd (dispatch serverCount serverEndTimes arrival
                (hd undefined serviceTimes)))
        rest (tl serviceTimes)
  end.

(** The object [simulateQueue] returns.  [totalTime] is
    [Math.max(...endTimes)]; of an empty [endTimes] that is [-Infinity],
    written [None] here (it does not occur: there is always a first
    customer). *)
Record SimulationResult : Type := {
  interarrivals : list num;
  arrivalTimes : list num;
  serviceTimes : list num;
  startTimes : list num;
  endTimes : list num;
  waitTimes : list num;
  turnaroundTimes : list num;
  responseTimes : list num;
  servers : list nat;
  queueLengths : list Z;
  totalCustomers : nat;
  totalTime : option num
}.

(** The customer records of a run, in arrival order. *)
Definition customers (gaps services : list num) (serverCount : nat) : list Customer :=
  serve serverCount (repeat (lit 0) serverCount) (arrivals gaps) services.

Definition simulateQueue (gaps services : list num) (serverCount : nat)
    : SimulationResult :=
  let rows := customers gaps services serverCount in
  {| interarrivals := gaps;
     arrivalTimes := arrivals gaps;
     serviceTimes := services;
     startTimes := map startTime rows;
     endTimes := map endTime rows;
     waitTimes := map waitTime rows;
     turnaroundTimes := map turnaroundTime rows;
     responseTimes := map responseTime rows;
     servers := map assignedServer rows;
     queueLengths := map queueLength rows;
     totalCustomers := length (arrivals gaps);
     totalTime :=
       match map endTime rows with
       | [] => None
       | e :: rest => Some (fold_left Math_max rest e)
       end |}.

End Core.

Arguments roundTo {N} value decimals : simpl never.
Arguments dispatch {N} serverCount serverEndTimes arrival service : simpl never.

(** *** The arrival process sampler: [cpCalc], [generateInterarrivals] *)

Section Sampler.

Context {N : Number} {E : Exponential N}.
Local Open Scope js_scope.

(** The loop of [cpCalc], [while (cp < 0.9999 && count < 200)]; each turn
    pushes [Math.min(cp, 1)] on [cparray] and [prevCp] on [cplookuparray],
    paired here.  [count] grows by one a turn, so 200 turns of fuel are never
    used up (lemma [cpLoop_fuel] below). *)
Fixpoint cpLoop (fuel : nat) (arrivalMean : num) (count : nat) (cp : num)
    : list (num * num) :=
  match fuel with
  | O => []
  | S fuel' =>
      if (cp <? lit 9999 / lit 10000) && (count <? 200)%nat then
        let calc :=
          Math_exp (- arrivalMean) * Math_pow arrivalMean count / factorial count in
        let prevCp := cp in
        let cp := cp + calc in
        (Math_min cp (lit 1), prevCp) :: cpLoop fuel' arrivalMean (S count) cp
      else []
  end.

(** [cpCalc(arrivalMean)] returns [[cparray, cplookuparray]]. *)
Definition cpCalc (arrivalMean : num) : list num * list num :=
  let rows := cpLoop 200 arrivalMean 0 (lit 0) in
  (map fst rows, map snd rows).

(** The table scan of [generateInterarrivals] from index [j] on, over what is
    left of [cplookuparray]: the first [j] with
    [random >= cplookuparray[j] && random < cparray[j]] gives [j + 1]; the
    initial value 1 stays when there is none. *)
Fixpoint lookupGap (j : nat) (cparray cplookuparray : list num) (random : num) : Z :=
  match cplookuparray with
  | [] => 1
  | lower :: rest =>
      if (random >=? lower) && (random <? aget cparray j)
      then Z.of_nat j + 1
      else lookupGap (S j) cparray rest random
  end.

(** The loop [while (totalTime < maxTime)]: the gaps pushed and the final
    [totalTime].  The k-th call of [Math.random()] returns [random k].  [None]
    stands for fuel used up before the loop ended. *)
Fixpoint drawGaps (fuel : nat) (cparray cplookuparray : list num) (maxTime : Z)
    (random : nat -> num) (k : nat) (totalTime : Z) : option (list Z * Z) :=
  if (totalTime <? maxTime)%Z then
    match fuel with
    | O => None
    | S fuel' =>
        let interarrival := lookupGap 0 cparray cplookuparray (random k) in
        match drawGaps fuel' cparray cplookuparray maxTime random (S k)
                (totalTime + interarrival) with
        | Some (gaps, total) => Some (interarrival :: gaps, total)
        | None => None
        end
    end
  else Some ([], totalTime).

(** [generateInterarrivals(mean, maxTime)], with [fuel] turns allowed to the
    loop.  [maxTime] is the whole number of minutes [parseInt] hands over.  The
    [catch] branch is never entered: [cpCalc] and the loop only do arithmetic on
    Numbers, which raises no exception. *)
Definition generateInterarrivalsIn (fuel : nat) (mean : num) (maxTime : Z)
    (random : nat -> num) : option (list Z) :=
  let (cparray, cplookuparray) := cpCalc mean in
  match drawGaps fuel cparray cplookuparray maxTime random 0 0 with
  | Some (gaps, totalTime) =>
      Some (if (totalTime >? maxTime)%Z then removelast (0%Z :: gaps)
            else 0%Z :: gaps)
  | None => None
  end.

(** Every gap is at least 1, so [maxTime] turns are enough. *)
Definition generateInterarrivals (mean : num) (maxTime : Z) (random : nat -> num)
    : option (list Z) :=
  generateInterarrivalsIn (Z.to_nat maxTime) mean maxTime random.

End Sampler.

(** *** The steady-state calculators *)

Section Calculators.

Context {N : Number}.
Local Open Scope js_scope.

(** The objects the calculators return; a property an object does not have is
    [None]. *)
Record Params : Type := {
  rho : num;
  p0 : option num;
  lq : num;
  wq : num;
  ws : num;
  ls : num;
  Cs_squared : option num
}.

(** [calculateMM1Params(lambda, mu)] *)
Definition calculateMM1Params (lambda mu : num) : Params :=
  let rho := lambda / mu in
  let lq := Math_pow rho 2 / (lit 1 - rho) in
  let wq := lq / lambda in
  let ws := wq + lit 1 / mu in
  let ls := lambda * ws in
  {| rho := rho; p0 := None; lq := lq; wq := wq; ws := ws; ls := ls;
     Cs_squared := None |}.

(** The loop [for (n = 0; n < c; n++) sum += (lambda / mu) ** n / factorial(n)]
    of both multi-server calculators. *)
Definition erlangSum (lambda mu : num) (c : nat) : num :=
  fold_left (fun sum n => sum + Math_pow (lambda / mu) n / factorial n)
            (seq 0 c) (lit 0).

(** [calculateMultiServerParams(lambda, mu, c)] of the M/M/c variant. *)
Definition calculateMultiServerParams (lambda mu : num) (c : nat) : Params :=
  let sum := erlangSum lambda mu c in
  let rho := lambda / (lit (Z.of_nat c) * mu) in
  let p0 :=
    lit 1 / (sum + Math_pow (lambda / mu) c / (factorial c * (lit 1 - rho))) in
  let lq :=
    (p0 * Math_pow (lambda / mu) c * rho)
    / (factorial c * Math_pow (lit 1 - rho) 2) in
  let wq := lq / lambda in
  let ws := wq + lit 1 / mu in
  let ls := lambda * ws in
  {| rho := rho; p0 := Some p0; lq := lq; wq := wq; ws := ws; ls := ls;
     Cs_squared := None |}.

(** [calculateMMcParams(lambda, mu, c)] of the M/G/c variant: the same
    function, written with [Math.pow] where the other has [**]. *)
Definition calculateMMcParams (lambda mu : num) (c : nat) : Params :=
  let sum := erlangSum lambda mu c in
  let rho := lambda / (lit (Z.of_nat c) * mu) in
  let p0 :=
    lit 1 / (sum + Math_pow (lambda / mu) c / (factorial c * (lit 1 - rho))) in
  let lq :=
    (p0 * Math_pow (lambda / mu) c * rho)
    / (factorial c * Math_pow (lit 1 - rho) 2) in
  let wq := lq / lambda in
  let ws := wq + lit 1 / mu in
  let ls := lambda * ws in
  {| rho := rho; p0 := Some p0; lq := lq; wq := wq; ws := ws; ls := ls;
     Cs_squared := None |}.

(** [calculateMG1Params(lambda, serviceMeanTime, shapeK)] *)
Definition calculateMG1Params (lambda serviceMeanTime shapeK : num) : Params :=
  let mu := lit 1 / serviceMeanTime in
  let rho := lambda / mu in
  let Cs_squared := lit 1 / shapeK in
  let wq := (rho * serviceMeanTime * (lit 1 + Cs_squared)) / (lit 2 * (lit 1 - rho)) in
  let lq := lambda * wq in
  let ws := wq + serviceMeanTime in
  let ls := lambda * ws in
  {| rho := rho; p0 := None; lq := lq; wq := wq; ws := ws; ls := ls;
     Cs_squared := Some Cs_squared |}.

(** [calculateMGCParams(lambda, serviceMeanTime, c, shapeK)] *)
Definition calculateMGCParams (lambda serviceMeanTime : num) (c : nat)
    (shapeK : num) : Params :=
  let mu := lit 1 / serviceMeanTime in
  let rho := lambda / (lit (Z.of_nat c) * mu) in
  let Cs_squared := lit 1 / shapeK in
  let mmParams := calculateMMcParams lambda mu c in
  let wq := wq mmParams * ((lit 1 + Cs_squared) / lit 2) in
  let lq := lambda * wq in
  let ws := wq + serviceMeanTime in
  let ls := lambda * ws in
  {| rho := rho; p0 := None; lq := lq; wq := wq; ws := ws; ls := ls;
     Cs_squared := Some Cs_squared |}.

End Calculators.

(** ** The three carriers *)

(** *** Exact rationals *)

Definition Qltb (x y : Q) : bool :=
  match x ?= y with
  | Lt => true
  | _ => false
  end.

(** [Math.round] rounds to the nearest integer, halves upwards:
    [floor (x + 1/2)].  The rationals have no NaN: [undefined] is given the
    value 0, and the theorems over [Q] assume a service time for every arrival
    and at least one server, so that it is never read.  They have no rounding
    either, and [x / 0] is 0 where binary64 has an infinity: an equation
    between two sums that holds over [Q] can fail in the last bit in binary64
    (lemma [records_not_exact_in_binary64]). *)
Definition QNumber : Number := {|
  num := Q;
  lit := inject_Z;
  jadd := Qplus;
  jsub := Qminus;
  jmul := Qmult;
  jdiv := Qdiv;
  jneg := Qopp;
  jlt := Qltb;
  jle := Qle_bool;
  jeq := Qeq_bool;
  Math_max := fun a b => if Qltb a b then b else a;
  Math_min := fun a b => if Qltb b a then b else a;
  Math_round := fun x => inject_Z (Qfloor (x + (1 # 2)));
  undefined := 0%Q
|}.

(** *** Exact reals *)

(** The reals with the real exponential: no rounding, no overflow of
    [Math.pow], no underflow of [Math.exp].  Used for what the cumulative
    table means where binary64 carries it (lemma [cpCalc_in_exact_reals]) and
    for the order properties of [exponentialRandom]; the statement about the
    table of the program itself is the one for every carrier. *)

Definition Rltb (x y : R) : bool := if Rlt_dec x y then true else false.
Definition Rleb (x y : R) : bool := if Rle_dec x y then true else false.
Definition Reqb (x y : R) : bool := if Req_dec_T x y then true else false.

Definition RNumber : Number := {|
  num := R;
  lit := IZR;
  jadd := Rplus;
  jsub := Rminus;
  jmul := Rmult;
  jdiv := Rdiv;
  jneg := Ropp;
  jlt := Rltb;
  jle := Rleb;
  jeq := Reqb;
  Math_max := fun a b => if Rltb a b then b else a;
  Math_min := fun a b => if Rltb b a then b else a;
  Math_round := fun x => IZR (Int_part (x + / 2));
  undefined := 0%R
|}.

Definition RExponential : Exponential RNumber := exp.

(** *** binary64 *)

Module F64.

Local Open Scope float_scope.

(** An integer literal; exact below 2^53 in magnitude, which covers every
    literal and counter of the program. *)
Definition ofZ (z : Z) : float :=
  if (z <? 0)%Z then - PrimFloat.of_uint63 (Uint63.of_Z (- z))
  else PrimFloat.of_uint63 (Uint63.of_Z z).

Definition isNaN (x : float) : bool := negb (x =? x).

(** [+0] and [-0] are equal for [=?]; their reciprocals tell them apart. *)
Definition isNegZero (x : float) : bool := (x =? 0) && (1 / x <? 0).

(** [Math.max], [Math.min]: NaN if either argument is NaN, and [+0] above
    [-0]. *)
Definition fmax (a b : float) : float :=
  if isNaN a then a else if isNaN b then b
  else if a <? b then b else if b <? a then a
  else if isNegZero a then b else a.

Definition fmin (a b : float) : float :=
  if isNaN a then a else if isNaN b then b
  else if a <? b then a else if b <? a then b
  else if isNegZero a then a else b.

Definition two52 : float := 4503599627370496.

(** The largest integer not above [x], for [|x| < 2^52]: adding and removing
    2^52 rounds [x] to an integer, which is one too many when it lies above
    [x]. *)
Definition floor (x : float) : float :=
  let r := if x <? 0 then (x - two52) + two52 else (x + two52) - two52 in
  if x <? r then r - 1 else r.

(** [Math.round]: NaN, the infinities, the zeros and every value of magnitude
    2^52 or more (an integer already) are returned as they are; otherwise the
    nearest integer, halves upwards, with the sign of [x] kept on a zero
    result. *)
Definition fround (x : float) : float :=
  if isNaN x || (x =? 0) || (two52 <=? abs x) then x
  else
    let f := floor x in
    let r := if x - f <? 0.5 then f else f + 1 in
    if (r =? 0) && (x <? 0) then - 0 else r.

(** The rational a finite binary64 number stands for; [None] for NaN and the
    infinities. *)
Definition toQ (x : float) : option Q :=
  match Prim2SF x with
  | S754_zero _ => Some 0%Q
  | S754_finite s m e =>
      let v := if s then Z.neg m else Z.pos m in
      Some (if (0 <=? e)%Z then inject_Z (v * 2 ^ e)
            else Qmake v (Z.to_pos (2 ^ (- e))))
  | _ => None
  end.

End F64.

Definition F64Number : Number := {|
  num := float;
  lit := F64.ofZ;
  jadd := PrimFloat.add;
  jsub := PrimFloat.sub;
  jmul := PrimFloat.mul;
  jdiv := PrimFloat.div;
  jneg := PrimFloat.opp;
  jlt := PrimFloat.ltb;
  jle := PrimFloat.leb;
  jeq := PrimFloat.eqb;
  Math_max := F64.fmax;
  Math_min := F64.fmin;
  Math_round := F64.fround;
  undefined := nan
|}.

(* ================================================================== *)
(** * Part II: the properties the specification states *)
(* ================================================================== *)

Section Properties.

Context {N : Number}.
Local Open Scope js_scope.

(** Well-formed input of the engine: at least one server, a first arrival, and
    one service time for every arrival. *)
Definition matched (gaps services : list num) (serverCount : nat) : bool :=
  (1 <=? serverCount)%nat && (1 <=? length gaps)%nat
  && (length services =? length gaps)%nat.

Definition nonnegative (l : list num) : bool :=
  forallb (fun x => lit 0 <=? x) l.

(** Values with two decimals: those [roundTo] leaves alone, as every service
    time is after [runSimulation] has rounded it. *)
Definition two_decimals (l : list num) : bool :=
  forallb (fun x => roundTo x 2 =? x) l.

Fixpoint nondecreasing (l : list num) : bool :=
  match l with
  | [] => true
  | a :: rest =>
      match rest with
      | [] => true
      | b :: _ => (a <=? b) && nondecreasing rest
      end
  end.

(** The four identities of a customer record. *)
Definition timing_ok (r : Customer) : bool :=
  (arrivalTime r <=? startTime r)
  && (endTime r =? startTime r + serviceTime r)
  && (lit 0 <=? waitTime r)
  && (turnaroundTime r =? waitTime r + serviceTime r).

Definition records_ok (rows : list Customer) : bool :=
  nondecreasing (map arrivalTime rows) && forallb timing_ok rows.

(** The same, with the two sums taken to two decimals as every reported field
    is. *)
Definition timing_rounded (r : Customer) : bool :=
  (arrivalTime r <=? startTime r)
  && (endTime r =? roundTo (startTime r + serviceTime r) 2)
  && (lit 0 <=? waitTime r)
  && (turnaroundTime r =? roundTo (waitTime r + serviceTime r) 2).

Definition records_rounded (rows : list Customer) : bool :=
  nondecreasing (map arrivalTime rows) && forallb timing_rounded rows.

(** The customers in service at instant [t]. *)
Definition active (t : num) (r : Customer) : bool :=
  (startTime r <=? t) && (t <? endTime r).

Definition in_service (t : num) (rows : list Customer) : nat :=
  length (filter (active t) rows).

(** The single-server recurrence: each start is the larger of the arrival and
    the end of the customer before. *)
Fixpoint follows_max (previousEnd : num) (rows : list Customer) : bool :=
  match rows with
  | [] => true
  | r :: rest =>
      (startTime r =? Math_max (arrivalTime r) previousEnd)
      && follows_max (endTime r) rest
  end.

Definition single_server_fifo (rows : list Customer) : bool :=
  forallb (fun r => (assignedServer r =? 1)%nat) rows
  && match rows with
     | [] => true
     | r :: rest => (startTime r =? arrivalTime r) && follows_max (endTime r) rest
     end.

End Properties.

(** The server chosen is free first, and is the lowest-numbered such server. *)
Definition earliest_lowest (serverEndTimes : list Q) (serverCount i : nat) : Prop :=
  (i < serverCount)%nat
  /\ (forall j, (j < serverCount)%nat ->
        (nth i serverEndTimes 0 <= nth j serverEndTimes 0)%Q)
  /\ (forall j, (j < i)%nat ->
        (nth i serverEndTimes 0 < nth j serverEndTimes 0)%Q).

(** What the scan knows after the servers [0 .. k]. *)
Definition scanned (ends : list Q) (k : nat) (best : nat * Q) : Prop :=
  (fst best <= k)%nat
  /\ snd best = @aget QNumber ends (fst best)
  /\ (forall j, (j <= k)%nat ->
        (@aget QNumber ends (fst best) <= @aget QNumber ends j)%Q)
  /\ (forall j, (j < fst best)%nat ->
        (@aget QNumber ends (fst best) < @aget QNumber ends j)%Q).

(** The rationals with two decimals. *)
Definition grid (q : Q) : Prop := exists n : Z, (q == inject_Z n / 100)%Q.

(** The arrival trace invariant of a horizon. *)
Definition total (l : list Z) : Z := fold_right Z.add 0%Z l.

Definition arrival_trace (maxTime : Z) (l : list Z) : Prop :=
  hd_error l = Some 0%Z
  /\ Forall (fun g => (1 <= g)%Z) (tl l)
  /\ (total (removelast l) <= maxTime)%Z
  /\ (total l <= maxTime)%Z.

(** *** The Poisson law *)

Definition poisson_pmf (rate : R) (k : nat) : R :=
  (exp (- rate) * rate ^ k / INR (fact k))%R.

(** P(X <= k) and P(X < k) *)
Definition poisson_cdf (rate : R) (k : nat) : R := sum_f_R0 (poisson_pmf rate) k.

Definition poisson_below (rate : R) (k : nat) : R :=
  match k with
  | O => 0%R
  | S j => poisson_cdf rate j
  end.

(** [table] is [[cparray, cplookuparray]]: entry [k] holds
    [P(X < k)] in [cplookuparray] and [P(X <= k)] in [cparray]. *)
Definition poisson_table (rate : R) (table : list R * list R) : Prop :=
  length (fst table) = length (snd table)
  /\ forall k, (k < length (fst table))%nat ->
       nth k (snd table) 0%R = poisson_below rate k
       /\ nth k (fst table) 0%R = poisson_cdf rate k.

(** A table of [n] entries stops at the first count whose cumulative
    probability reaches 0.9999, or at 200 entries. *)
Definition stops_at (rate : R) (n : nat) : Prop :=
  (1 <= n <= 200)%nat
  /\ (forall k, (k < n)%nat -> (poisson_below rate k < 9999 / 10000)%R)
  /\ (n = 200%nat \/ (9999 / 10000 <= poisson_cdf rate (n - 1))%R).

(** *** The closed forms of the calculators, as the specification writes
    them *)

Definition Qfact (n : nat) : Q := inject_Z (Z.of_nat (fact n)).

(** n!, computed in [Z]. *)
Fixpoint factZ (n : nat) : Z :=
  match n with
  | O => 1
  | S k => Z.of_nat (S k) * factZ k
  end.

(** The sum of [f 0 .. f (n - 1)] *)
Fixpoint Qsum (f : nat -> Q) (n : nat) : Q :=
  match n with
  | O => 0
  | S k => Qsum f k + f k
  end.

Definition erlang_rho (lambda mu : Q) (c : nat) : Q :=
  lambda / (inject_Z (Z.of_nat c) * mu).

Definition erlang_p0 (lambda mu : Q) (c : nat) : Q :=
  / (Qsum (fun n => (lambda / mu) ^ Z.of_nat n / Qfact n) c
     + (lambda / mu) ^ Z.of_nat c / (Qfact c * (1 - erlang_rho lambda mu c))).

Definition erlang_Lq (lambda mu : Q) (c : nat) : Q :=
  erlang_p0 lambda mu c * (lambda / mu) ^ Z.of_nat c * erlang_rho lambda mu c
  / (Qfact c * (1 - erlang_rho lambda mu c) ^ 2).

Definition erlang_Wq (lambda mu : Q) (c : nat) : Q := erlang_Lq lambda mu c / lambda.

(* ================================================================== *)
(** * Part II, continued: the rest of the core *)
(* ================================================================== *)

(** [Math.log], kept apart like [Math.exp]. *)
Class Logarithm (N : Number) : Type := Math_log : num -> num.

Definition RLogarithm : Logarithm RNumber := ln.

Section Pipeline.

Context {N : Number} {E : Exponential N} {L : Logarithm N}.
Local Open Scope js_scope.

(** [exponentialRandom(mean)], with the value [Math.random()] returns as
    second argument. *)
Definition exponentialRandom (mean random : num) : num :=
  - Math_log (lit 1 - random) * mean.

(** The utilization [runSimulation] and [validateUtilization] compute from
    the two means and the server count [c] parsed from the model name. *)
Definition utilization (arrivalMean serviceMean : num) (c : nat) : num :=
  let lambda := lit 1 / arrivalMean in
  let mu := lit 1 / serviceMean in
  lambda / (lit (Z.of_nat c) * mu).

(** The calls of [Math.random()] that [generateInterarrivals] makes: one for
    each turn of its loop. *)
Definition drawsUsed (mean : num) (maxTime : Z) (random : nat -> num) : nat :=
  match drawGaps (Z.to_nat maxTime) (fst (cpCalc mean)) (snd (cpCalc mean))
          maxTime random 0 0 with
  | Some (gaps, _) => length gaps
  | None => O
  end.

(** What [runSimulation] of the M/M/c variant does once the form is read and
    validated: either it stops on an unstable system, or it hands the
    simulation result and the theoretical parameters to the page. *)
Inductive Outcome : Type :=
  | Unstable (rho : num)
  | Completed (simulationResult : SimulationResult) (theoreticalParams : Params).

(** [interarrivals.map(() => roundTo(exponentialRandom(serviceMean), 2))]
    draws once for each element, after the draws of [generateInterarrivals]. *)
Definition drawServiceTimes (serviceMean : num) (random : nat -> num)
    (first count : nat) : list num :=
  map (fun i => roundTo (exponentialRandom serviceMean (random (first + i)%nat)) 2)
      (seq 0 count).

Definition runSimulation (arrivalMean serviceMean : num) (simulationTime : Z)
    (c : nat) (random : nat -> num) : option Outcome :=
  let lambda := lit 1 / arrivalMean in
  let mu := lit 1 / serviceMean in
  let rho := utilization arrivalMean serviceMean c in
  if rho >=? lit 1 then Some (Unstable rho)
  else
    match generateInterarrivals arrivalMean simulationTime random with
    | None => None
    | Some gaps =>
        let interarrivals := map lit gaps in
        let serviceTimes :=
          drawServiceTimes serviceMean random
            (drawsUsed arrivalMean simulationTime random) (length interarrivals) in
        let simulationResult := simulateQueue interarrivals serviceTimes c in
        let theoreticalParams :=
          if (c =? 1)%nat then calculateMM1Params lambda mu
          else calculateMultiServerParams lambda mu c in
        Some (Completed simulationResult theoreticalParams)
    end.

End Pipeline.

Section Statistics.

Context {N : Number}.
Local Open Scope js_scope.

(** [a.reduce((x, y) => x + y, 0)] *)
Definition reduceSum (a : list num) : num := fold_left jadd a (lit 0).

(** The three numbers [updateStats] writes to the page, before [toFixed]
    prints them. *)
Record Stats : Type := {
  stat_arrivals : nat;
  stat_wait : num;
  stat_turnaround : num
}.

Definition updateStats (simulation : SimulationResult) : Stats :=
  let totalCustomers := totalCustomers simulation in
  let avgWait :=
    reduceSum (waitTimes simulation) / lit (Z.of_nat totalCustomers) in
  let avgTurnaround :=
    reduceSum (turnaroundTimes simulation) / lit (Z.of_nat totalCustomers) in
  {| stat_arrivals := totalCustomers;
     stat_wait := avgWait;
     stat_turnaround := avgTurnaround |}.

(** One element of [serverStats] ([customers] in the source). *)
Record ServerStat : Type := {
  customerCount : nat;
  busyTime : num;
  totalServiceTime : num
}.

(** [serverStats[serverIndex].customers++] and
    [serverStats[serverIndex].totalServiceTime += service]; the guard of the
    caller keeps [serverIndex] inside the array. *)
Fixpoint credit (serverStats : list ServerStat) (serverIndex : nat) (service : num)
    : list ServerStat :=
  match serverStats, serverIndex with
  | [], _ => []
  | st :: rest, O =>
      {| customerCount := S (customerCount st);
         busyTime := busyTime st;
         totalServiceTime := totalServiceTime st + service |} :: rest
  | st :: rest, S k => st :: credit rest k service
  end.

(** The first loop of [updateServerStats], over [simulation.servers], with
    [simulation.serviceTimes[i]] the head of what is left of the service
    times. *)
Fixpoint tally (serverCount : nat) (serverStats : list ServerStat)
    (servers : list nat) (serviceTimes : list num) : list ServerStat :=
  match servers with
  | [] => serverStats
  | server :: rest =>
      let serverIndex := (Z.of_nat server - 1)%Z in
      let serverStats :=
        if (0 <=? serverIndex)%Z && (serverIndex <? Z.of_nat serverCount)%Z
        then credit serverStats (Z.to_nat serverIndex) (hd undefined serviceTimes)
        else serverStats in
      tally serverCount serverStats rest (tl serviceTimes)
  end.

(** [x || 1]: 1 when [x] is 0 or NaN. *)
Definition orOne (x : num) : num :=
  if (x =? lit 0) || negb (x =? x) then lit 1 else x.

(** What a server card shows, before [toFixed] prints it. *)
Record ServerCard : Type := {
  card_customers : nat;
  card_utilization : num;
  card_avgServiceTime : num
}.

(** [updateServerStats(simulation, serverCount)].  [None] stands for a
    [totalTime] of [-Infinity], which [simulateQueue] never returns. *)
Definition updateServerStats (simulation : SimulationResult) (serverCount : nat)
    : option (list ServerCard) :=
  match totalTime simulation with
  | None => None
  | Some t =>
      let serverStats :=
        tally serverCount
          (repeat {| customerCount := O; busyTime := lit 0;
                     totalServiceTime := lit 0 |} serverCount)
          (servers simulation) (serviceTimes simulation) in
      let totalTime := orOne t in
      Some (map (fun st =>
                   {| card_customers := customerCount st;
                      card_utilization :=
                        (totalServiceTime st / totalTime) * lit 100;
                      card_avgServiceTime :=
                        if (0 <? customerCount st)%nat
                        then totalServiceTime st / lit (Z.of_nat (customerCount st))
                        else lit 0 |})
                serverStats)
  end.

End Statistics.

Section Validation.

Context {N : Number}.
Local Open Scope js_scope.

(** What [validateUtilization] does to the warning box: the class it gives
    it, or [Hidden] for [display = 'none']. *)
Inductive Banner : Type := Danger | Warning | Info | Secondary | Hidden.

(** [!x] on a Number: true for 0 and for NaN. *)
Definition falsy (x : num) : bool := (x =? lit 0) || negb (x =? x).

(** The text of [stat-utilization], before the percent sign. *)
Definition shownUtilization (utilization : num) : num :=
  Math_min (lit 99) (Math_round (utilization * lit 100)).

(** [validateUtilization()] of the M/M/c variant, on the parsed values of the
    form and the server count of the model; [None] when it returns before
    touching the page. *)
Definition validateUtilization (arrivalMean serviceMean : num) (c : nat)
    : option (Banner * num) :=
  if falsy arrivalMean || falsy serviceMean then None
  else
    let utilization := utilization arrivalMean serviceMean c in
    let banner :=
      if utilization >=? lit 9 / lit 10 then Warning
      else if utilization >=? lit 7 / lit 10 then Info
      else if utilization <? lit 3 / lit 10 then Secondary
      else Hidden in
    Some (banner, shownUtilization utilization).

(** [validateUtilization()] of the M/G/c variant. *)
Definition validateUtilizationGamma (arrivalMean serviceMeanTime shapeK : num)
    (c : nat) : option (Banner * num) :=
  if falsy arrivalMean || falsy serviceMeanTime || falsy shapeK then None
  else
    let utilization := utilization arrivalMean serviceMeanTime c in
    let banner :=
      if utilization >=? lit 1 then Danger
      else if utilization >=? lit 85 / lit 100 then Warning
      else if utilization >=? lit 6 / lit 10 then Info
      else Hidden in
    Some (banner, shownUtilization utilization).

End Validation.

(** *** The cumulative table in the arithmetic of the program *)

Section ComputedTable.

Context {N : Number} {E : Exponential N}.
Local Open Scope js_scope.

(** The probability of the count [k] under the Poisson law of mean [m], as
    the expression of [cpCalc] evaluates it. *)
Definition computed_pmf (m : num) (k : nat) : num :=
  Math_exp (- m) * Math_pow m k / factorial k.

(** The terms below [k], added to 0 in the order of the counts: P(X < k) as
    the program computes it. *)
Fixpoint computed_below (m : num) (k : nat) : num :=
  match k with
  | O => lit 0
  | S j => computed_below m j + computed_pmf m j
  end.

(** [table] is [[cparray, cplookuparray]]: entry [k] holds the computed
    P(X < k) in [cplookuparray] and the computed P(X <= k), capped at 1, in
    [cparray]. *)
Definition computed_table (m : num) (table : list num * list num) : Prop :=
  length (fst table) = length (snd table)
  /\ forall k, (k < length (fst table))%nat ->
       nth k (snd table) undefined = computed_below m k
       /\ nth k (fst table) undefined = Math_min (computed_below m (S k)) (lit 1).

(** A table of [n] entries ends at the first count whose computed cumulative
    probability is not below 0.9999, or at 200 entries. *)
Definition computed_stops_at (m : num) (n : nat) : Prop :=
  (n <= 200)%nat
  /\ (forall k, (k < n)%nat ->
        (computed_below m k <? lit 9999 / lit 10000) = true)
  /\ (n = 200%nat \/ (computed_below m n <? lit 9999 / lit 10000) = false).

End ComputedTable.

(** [Math.exp] of binary64 where it underflows: below -745.14 the exponential
    is less than half the smallest positive binary64 number and [Math.exp]
    returns 0.  Nothing else of [Math.exp] is evaluated at binary64 here; the
    instance answers NaN elsewhere. *)
Definition F64Underflow : Exponential F64Number :=
  fun x => if PrimFloat.ltb x (-746)%float then 0%float else nan.

(* ================================================================== *)
(** * Part III: theorems *)
(* ================================================================== *)

(** ** Facts that hold whatever the arithmetic is *)

Section AnyCarrier.

Context {N : Number}.
Local Open Scope js_scope.

Lemma serve_length (c : nat) (arrivalTimes : list num) :
  forall ends services, length (serve c ends arrivalTimes services) = length arrivalTimes.
Proof.
  induction arrivalTimes as [|a rest IH]; intros ends services; simpl.
  - reflexivity.
  - now rewrite IH.
Qed.

Lemma serve_arrivalTime (c : nat) (arrivalTimes : list num) :
  forall ends services,
    map arrivalTime (serve c ends arrivalTimes services) = arrivalTimes.
Proof.
  induction arrivalTimes as [|a rest IH]; intros ends services; simpl.
  - reflexivity.
  - now rewrite IH.
Qed.

Lemma arrivals_length (gaps : list num) :
  length (arrivals gaps) = Nat.max 1 (length gaps).
Proof.
  unfold arrivals. simpl.
  assert (H : forall cur l, length (cumulate cur l) = length l).
  { intros cur l. revert cur. induction l as [|g l IH]; intros cur; simpl; auto. }
  rewrite H. destruct gaps as [|g gaps]; simpl; auto.
Qed.

(** The scan only ever picks an index it has visited. *)
Lemma selectServer_scan (ends : list num) (l : list nat) (best : nat * num) (b : nat) :
  (fst best <= b)%nat -> Forall (fun s => (s <= b)%nat) l ->
  (fst (fold_left (scanServer ends) l best) <= b)%nat.
Proof.
  revert best. induction l as [|s l IH]; intros [i e] Hi Hl; simpl in *.
  - exact Hi.
  - inversion Hl; subst. apply IH; [|assumption].
    destruct (jlt (aget ends s) e); simpl; assumption.
Qed.

Lemma selectServer_le (ends : list num) (c : nat) :
  (selectServer ends c <= c - 1)%nat.
Proof.
  unfold selectServer. apply selectServer_scan.
  - simpl. lia.
  - apply Forall_forall. intros s Hs. apply in_seq in Hs. lia.
Qed.

Lemma selectServer_single (ends : list num) : selectServer ends 1 = O.
Proof. reflexivity. Qed.

Lemma queuedCustomers_le (ends : list num) (c : nat) (arrival : num) :
  (queuedCustomers ends c arrival <= c)%nat.
Proof.
  unfold queuedCustomers.
  assert (H : forall l : list nat,
             (length (filter (fun s => jlt arrival (aget ends s)) l) <= length l)%nat).
  { induction l as [|s l IH]; simpl; [lia|].
    destruct (jlt arrival (aget ends s)); simpl; lia. }
  specialize (H (seq 0 c)). rewrite length_seq in H. exact H.
Qed.

Lemma dispatch_queueLength (c : nat) (ends : list num) (arrival service : num) :
  queueLength (fst (dispatch c ends arrival service)) = 0%Z.
Proof.
  unfold dispatch. simpl.
  pose proof (queuedCustomers_le ends c arrival). lia.
Qed.

Lemma serve_queueLength (c : nat) (arrivalTimes : list num) :
  forall ends services,
    Forall (fun r => queueLength r = 0%Z) (serve c ends arrivalTimes services).
Proof.
  induction arrivalTimes as [|a rest IH]; intros ends services; simpl.
  - constructor.
  - constructor.
    + apply (dispatch_queueLength c ends a (hd undefined services)).
    + apply IH.
Qed.

(** Every reported time is rounded on its own, from the unrounded start
    [max(arrival, next-available time)]. *)
Lemma dispatch_reports (c : nat) (ends : list num) (arrival service : num) :
  let row := fst (dispatch c ends arrival service) in
  let start := Math_max arrival (aget ends (selectServer ends c)) in
  startTime row = roundTo start 2
  /\ endTime row = roundTo (start + service) 2
  /\ waitTime row = roundTo (Math_max (lit 0) (start - arrival)) 2
  /\ turnaroundTime row = roundTo (start + service - arrival) 2
  /\ snd (dispatch c ends arrival service)
     = aset ends (selectServer ends c) (start + service).
Proof. repeat split. Qed.

Lemma aset_length (a : list num) :
  forall i v, (i < length a)%nat -> length (aset a i v) = length a.
Proof.
  induction a as [|h t IH]; intros i v Hi; simpl in *.
  - lia.
  - destruct i; simpl; [reflexivity|]. rewrite IH; [reflexivity|lia].
Qed.

Lemma aset_same (a : list num) :
  forall i v, (i < length a)%nat -> aget (aset a i v) i = v.
Proof.
  induction a as [|h t IH]; intros i v Hi; simpl in *.
  - lia.
  - destruct i; simpl; [reflexivity|]. apply IH. lia.
Qed.

Lemma aset_other (a : list num) :
  forall i j v, (i < length a)%nat -> j <> i -> aget (aset a i v) j = aget a j.
Proof.
  induction a as [|h t IH]; intros i j v Hi Hj; simpl in *.
  - lia.
  - destruct i, j; simpl; try reflexivity; try congruence.
    apply IH; [lia|congruence].
Qed.

End AnyCarrier.

(** C5.  Whatever the gaps, the service times, the number of servers and the
    arithmetic, every element of [queueLengths] is 0: the servers counted as
    busy at an arrival are at most [serverCount], and [serverCount] is taken
    from that count before the result is floored at 0. *)
Theorem queueLengths_all_zero :
  forall (N : Number) (gaps services : list num) (serverCount : nat),
    (forall (serverEndTimes : list num) (arrival : num),
        (queuedCustomers serverEndTimes serverCount arrival <= serverCount)%nat)
    /\ Forall (fun q => q = 0%Z)
         (queueLengths (simulateQueue gaps services serverCount)).
Proof.
  intros N gaps services c. split.
  - intros ends arrival. apply queuedCustomers_le.
  - unfold simulateQueue, customers. cbn [queueLengths].
    apply Forall_map. apply serve_queueLength.
Qed.

(** C4, as stated, fails: no input at all makes the record sequence empty. *)
Lemma empty_run_unreachable :
  ~ (exists (N : Number) (gaps services : list num) (serverCount : nat),
        customers gaps services serverCount = []
        /\ totalCustomers (simulateQueue gaps services serverCount) = 0%nat).
Proof.
  intros (N & gaps & services & c & Hrows & _).
  unfold customers, arrivals in Hrows. simpl in Hrows.
  destruct (dispatch c (repeat (lit 0) c) (lit 0) (hd undefined services)).
  discriminate Hrows.
Qed.

(** C4, amended.  [arrivalTimes] starts as [[0]]: a run always reports the
    customer that arrives at time 0.  [totalCustomers] is the number of
    records, it is the number of gaps handed in (1 when none is), and the
    shortest trace, [[0]], gives the degenerate result: one record. *)
Theorem at_least_one_customer :
  forall (N : Number) (gaps services : list num) (serverCount : nat),
    let result := simulateQueue gaps services serverCount in
    totalCustomers result = length (customers gaps services serverCount)
    /\ totalCustomers result = Nat.max 1 (length gaps)
    /\ (1 <= totalCustomers result)%nat
    /\ totalCustomers (simulateQueue [lit 0] services serverCount) = 1%nat.
Proof.
  intros N gaps services c result. subst result.
  unfold simulateQueue. cbn [totalCustomers].
  unfold customers. rewrite serve_length, !arrivals_length.
  repeat split; try reflexivity. destruct (length gaps); simpl; lia.
Qed.

(** ** The arrival trace *)

Section Trace.

Context {N : Number} {E : Exponential N}.

(** [cpLoop] never needs more than the [200 - count] turns the bound on
    [count] leaves it. *)
Lemma cpLoop_fuel (arrivalMean : num) :
  forall fuel fuel' count cp,
    (200 - count <= fuel)%nat -> (fuel <= fuel')%nat ->
    cpLoop fuel' arrivalMean count cp = cpLoop fuel arrivalMean count cp.
Proof.
  induction fuel as [|fuel IH]; intros fuel' count cp Hfuel Hle.
  - destruct fuel' as [|fuel']; [reflexivity|]. cbn [cpLoop].
    destruct (Nat.ltb_spec count 200) as [Hlt|Hge]; [lia|].
    now rewrite andb_false_r.
  - destruct fuel' as [|fuel']; [lia|]. cbn [cpLoop].
    destruct (jlt cp (jdiv (lit 9999) (lit 10000)) && (count <? 200)%nat);
      [|reflexivity].
    f_equal. apply IH; lia.
Qed.

Lemma lookupGap_pos (cparray : list num) (random : num) :
  forall cplookuparray j, (1 <= lookupGap j cparray cplookuparray random)%Z.
Proof.
  induction cplookuparray as [|lower rest IH]; intros j; simpl.
  - lia.
  - destruct (jle lower random && jlt random (aget cparray j)); [lia|apply IH].
Qed.

(** A draw that falls in no interval of the table gives the gap 1. *)
Lemma lookupGap_default (cparray : list num) (random : num) :
  forall cplookuparray j,
    (forall i, (i < length cplookuparray)%nat ->
       jle (nth i cplookuparray undefined) random
       && jlt random (aget cparray (j + i)) = false) ->
    lookupGap j cparray cplookuparray random = 1%Z.
Proof.
  induction cplookuparray as [|lower rest IH]; intros j Hmiss; cbn [lookupGap].
  - reflexivity.
  - pose proof (Hmiss O ltac:(simpl; lia)) as H0.
    cbn [nth] in H0. rewrite Nat.add_0_r in H0. rewrite H0.
    apply IH. intros i Hi. specialize (Hmiss (S i) ltac:(simpl; lia)).
    cbn [nth] in Hmiss. now replace (S j + i)%nat with (j + S i)%nat by lia.
Qed.

(** The first interval that contains the draw, entry [i], gives the gap
    [i + 1]. *)
Lemma lookupGap_hit (cparray : list num) (random : num) :
  forall cplookuparray j i,
    (i < length cplookuparray)%nat ->
    jle (nth i cplookuparray undefined) random
    && jlt random (aget cparray (j + i)) = true ->
    (forall i', (i' < i)%nat ->
       jle (nth i' cplookuparray undefined) random
       && jlt random (aget cparray (j + i')) = false) ->
    lookupGap j cparray cplookuparray random = (Z.of_nat (j + i) + 1)%Z.
Proof.
  induction cplookuparray as [|lower rest IH]; intros j i Hi Hhit Hmiss;
    cbn [lookupGap]; [simpl in Hi; lia|].
  destruct i as [|i].
  - cbn [nth] in Hhit. rewrite Nat.add_0_r in *. now rewrite Hhit.
  - pose proof (Hmiss O ltac:(lia)) as H0.
    cbn [nth] in H0. rewrite Nat.add_0_r in H0. rewrite H0.
    replace (j + S i)%nat with (S j + i)%nat in * by lia.
    apply IH.
    + simpl in Hi. lia.
    + exact Hhit.
    + intros i' Hi'. specialize (Hmiss (S i') ltac:(lia)).
      cbn [nth] in Hmiss. now replace (S j + i')%nat with (j + S i')%nat by lia.
Qed.

Lemma total_app (l1 l2 : list Z) : total (l1 ++ l2) = (total l1 + total l2)%Z.
Proof.
  induction l1 as [|x l1 IH]; simpl; [reflexivity|].
  unfold total in *. simpl. rewrite IH. lia.
Qed.

Lemma total_removelast (l : list Z) :
  l <> [] -> total l = (total (removelast l) + last l 0)%Z.
Proof.
  intros Hl. rewrite (app_removelast_last 0%Z Hl) at 1.
  rewrite total_app. unfold total at 2. simpl. lia.
Qed.

Lemma Forall_removelast (P : Z -> Prop) (l : list Z) :
  Forall P l -> Forall P (removelast l).
Proof.
  induction 1 as [|x l Hx Hl IH]; simpl; [constructor|].
  destruct l; [constructor|]. constructor; assumption.
Qed.

Lemma total_removelast_le (l : list Z) :
  Forall (fun g => (0 <= g)%Z) l -> (total (removelast l) <= total l)%Z.
Proof.
  induction 1 as [|x l Hx Hl IH]; [apply Z.le_refl|].
  destruct l as [|y l].
  - unfold total. simpl. lia.
  - change (removelast (x :: y :: l)) with (x :: removelast (y :: l)).
    unfold total in *. simpl in *. lia.
Qed.

Lemma Forall_positive_nonneg (l : list Z) :
  Forall (fun g => (1 <= g)%Z) l -> Forall (fun g => (0 <= g)%Z) l.
Proof. apply Forall_impl. intros g Hg. lia. Qed.

(** The sampling loop ends within [maxTime - totalTime] turns, every gap it
    pushes is at least 1, and it stops at the first total that is not below
    the horizon. *)
Lemma drawGaps_spec (cparray cplookuparray : list num) (maxTime : Z)
    (random : nat -> num) :
  forall fuel k totalTime,
    (maxTime - totalTime <= Z.of_nat fuel)%Z ->
    exists gaps final,
      drawGaps fuel cparray cplookuparray maxTime random k totalTime
      = Some (gaps, final)
      /\ Forall (fun g => (1 <= g)%Z) gaps
      /\ final = (totalTime + total gaps)%Z
      /\ (maxTime <= final)%Z
      /\ (gaps <> [] -> (final - last gaps 0 < maxTime)%Z).
Proof.
  induction fuel as [|fuel IH]; intros k totalTime Hfuel.
  - exists [], totalTime. unfold drawGaps.
    destruct (Z.ltb_spec totalTime maxTime); [lia|].
    repeat split; auto; unfold total; simpl; try lia. congruence.
  - simpl. destruct (Z.ltb_spec totalTime maxTime) as [Hlt|Hge].
    + set (g := lookupGap 0 cparray cplookuparray (random k)).
      assert (Hg : (1 <= g)%Z) by apply lookupGap_pos.
      destruct (IH (S k) (totalTime + g)%Z) as (gaps & final & Heq & Hall & Hfin & Hmax & Hlast);
        [lia|].
      rewrite Heq. exists (g :: gaps), final.
      split; [reflexivity|]. split; [constructor; assumption|].
      split; [unfold total in *; simpl; lia|]. split; [assumption|].
      intros _. destruct gaps as [|g' gaps'].
      * unfold total in Hfin. simpl in *. lia.
      * change (last (g :: g' :: gaps') 0%Z) with (last (g' :: gaps') 0%Z).
        apply Hlast. discriminate.
    + exists [], totalTime.
      repeat split; auto; unfold total; simpl; try lia. congruence.
Qed.

(** More fuel than needed changes nothing. *)
Lemma drawGaps_fuel (cparray cplookuparray : list num) (maxTime : Z)
    (random : nat -> num) :
  forall fuel fuel' k totalTime,
    (maxTime - totalTime <= Z.of_nat fuel)%Z -> (fuel <= fuel')%nat ->
    drawGaps fuel' cparray cplookuparray maxTime random k totalTime
    = drawGaps fuel cparray cplookuparray maxTime random k totalTime.
Proof.
  induction fuel as [|fuel IH]; intros fuel' k totalTime Hfuel Hle.
  - destruct fuel'; simpl; destruct (Z.ltb_spec totalTime maxTime); try lia; reflexivity.
  - destruct fuel' as [|fuel']; [lia|]. simpl.
    destruct (Z.ltb_spec totalTime maxTime) as [Hlt|Hge]; [|reflexivity].
    pose proof (lookupGap_pos cparray (random k) cplookuparray 0) as Hg.
    rewrite (IH fuel'); [reflexivity|lia|lia].
Qed.

Lemma generateInterarrivals_fuel (mean : num) (maxTime : Z) (random : nat -> num)
    (fuel : nat) :
  (Z.to_nat maxTime <= fuel)%nat ->
  generateInterarrivalsIn fuel mean maxTime random
  = generateInterarrivals mean maxTime random.
Proof.
  intros Hfuel. unfold generateInterarrivals, generateInterarrivalsIn.
  destruct (cpCalc mean) as [cparray cplookuparray].
  rewrite (drawGaps_fuel cparray cplookuparray maxTime random (fuel := Z.to_nat maxTime));
    [reflexivity|lia|assumption].
Qed.

End Trace.

(** C10.  For every mean and every positive horizon, whatever [Math.random]
    returns, [generateInterarrivals] returns a sequence that starts with 0,
    whose later gaps are integers not below 1, and whose sum, with or without
    its last element, is within the horizon: the gap that overshoots has been
    removed.  A draw that falls in no interval of the table gives the gap 1. *)
Theorem generateInterarrivals_trace :
  forall (N : Number) (E : Exponential N) (mean : num) (maxTime : Z)
         (random : nat -> num),
    (0 < maxTime)%Z ->
    (exists l, generateInterarrivals mean maxTime random = Some l
               /\ arrival_trace maxTime l)
    /\ (forall (cparray cplookuparray : list num) (u : num),
          (forall i, (i < length cplookuparray)%nat ->
             jle (nth i cplookuparray undefined) u
             && jlt u (aget cparray i) = false) ->
          lookupGap 0 cparray cplookuparray u = 1%Z).
Proof.
  intros N E mean maxTime random Hpos.
  split; [|intros cparray cplookuparray u Hmiss;
           now apply lookupGap_default].
  unfold generateInterarrivals, generateInterarrivalsIn.
  destruct (cpCalc mean) as [cparray cplookuparray].
  destruct (drawGaps_spec cparray cplookuparray maxTime random
              (Z.to_nat maxTime) 0 0%Z) as (gaps & final & Heq & Hall & Hfin & Hmax & Hlast);
    [lia|].
  rewrite Heq. simpl in Hfin.
  destruct (Z.gtb_spec final maxTime) as [Hover|Hfit].
  - (* the last gap overshoots and is popped *)
    assert (Hne : gaps <> []).
    { intros ->. unfold total in Hfin. simpl in Hfin. lia. }
    exists (removelast (0%Z :: gaps)). split; [reflexivity|].
    replace (removelast (0%Z :: gaps)) with (0%Z :: removelast gaps)
      by (destruct gaps; [congruence|reflexivity]).
    specialize (Hlast Hne).
    pose proof (total_removelast Hne) as Hsum.
    pose proof (Forall_removelast Hall) as Hall'.
    assert (Hcut : (total (0%Z :: removelast gaps) <= maxTime)%Z)
      by (unfold total in *; simpl; lia).
    unfold arrival_trace. repeat split; [exact Hall'| |exact Hcut].
    apply Z.le_trans with (total (0%Z :: removelast gaps)); [|exact Hcut].
    apply total_removelast_le. constructor; [lia|].
    now apply Forall_positive_nonneg.
  - (* the total meets the horizon exactly *)
    exists (0%Z :: gaps). split; [reflexivity|].
    assert (Hfits : (total (0%Z :: gaps) <= maxTime)%Z)
      by (unfold total in *; simpl; lia).
    unfold arrival_trace. repeat split; [exact Hall| |exact Hfits].
    apply Z.le_trans with (total (0%Z :: gaps)); [|exact Hfits].
    apply total_removelast_le. constructor; [lia|].
    now apply Forall_positive_nonneg.
Qed.

Lemma generateInterarrivals_trace_witness :
  (0 < 3)%Z
  /\ exists l,
       @generateInterarrivals RNumber RExponential 2%R 3 (fun _ => (1 / 2)%R) = Some l
       /\ arrival_trace 3 l.
Proof.
  split; [reflexivity|].
  apply (proj1 (@generateInterarrivals_trace RNumber RExponential 2%R 3
                  (fun _ => (1 / 2)%R) eq_refl)).
Defined.

(** ** The cumulative table, whatever the arithmetic is *)

Section TableAnyCarrier.

Context {N : Number} {E : Exponential N}.
Local Open Scope js_scope.

(** The rows the loop pushes from [count] on, when the running sum is the
    computed P(X < count). *)
Lemma cpLoop_computed (m : num) :
  forall fuel count,
    (fuel + count = 200)%nat ->
    let rows := cpLoop fuel m count (computed_below m count) in
    (length rows <= fuel)%nat
    /\ (forall k, (k < length rows)%nat ->
          nth k rows (undefined, undefined)
          = (Math_min (computed_below m (S (count + k))) (lit 1),
             computed_below m (count + k))
          /\ (computed_below m (count + k) <? lit 9999 / lit 10000) = true)
    /\ (length rows = fuel
        \/ (computed_below m (count + length rows) <? lit 9999 / lit 10000)
           = false).
Proof.
  induction fuel as [|fuel IH]; intros count Hsum rows; subst rows.
  - cbn [cpLoop length]. split; [lia|]. split; [|left; reflexivity].
    intros k Hk. lia.
  - cbn [cpLoop].
    destruct (computed_below m count <? lit 9999 / lit 10000) eqn:Hguard.
    + replace (count <? 200)%nat with true
        by (symmetry; apply Nat.ltb_lt; lia).
      cbn [andb].
      change (computed_below m count
              + Math_exp (- m) * Math_pow m count / factorial count)
        with (computed_below m (S count)).
      specialize (IH (S count) ltac:(lia)). cbv zeta in IH.
      destruct IH as (Hlen & Hrows & Hend).
      cbn [length]. split; [lia|]. split.
      * intros [|k] Hk.
        -- rewrite Nat.add_0_r. cbn [nth]. split; [reflexivity|exact Hguard].
        -- cbn [nth]. replace (count + S k)%nat with (S count + k)%nat by lia.
           apply Hrows. lia.
      * destruct Hend as [Hend|Hend]; [left; lia|right].
        replace (count + S (length (cpLoop fuel m (S count)
                                      (computed_below m (S count)))))%nat
          with (S count + length (cpLoop fuel m (S count)
                                    (computed_below m (S count))))%nat by lia.
        exact Hend.
    + cbn [andb length]. split; [lia|]. split; [intros k Hk; lia|].
      right. rewrite Nat.add_0_r. exact Hguard.
Qed.

End TableAnyCarrier.


(** ** binary64: a concrete run *)


(** On the same run the properties that do not add reported values hold in
    binary64 as well, and so do the two sums once rounded to two decimals. *)
Lemma binary64_run_other_properties :
  let gaps := [@lit F64Number 0; lit 1] in
  let services := [@jdiv F64Number (lit 11) (lit 10); jdiv (lit 22) (lit 10)] in
  let rows := customers gaps services 1 in
  nondecreasing (map arrivalTime rows) = true
  /\ records_rounded rows = true
  /\ forallb (fun r => jle (arrivalTime r) (startTime r)
                       && jle (lit 0) (waitTime r)) rows = true
  /\ single_server_fifo rows = true
  /\ in_service (jdiv (lit 11) (lit 10)) rows = 1%nat
  /\ queueLengths (simulateQueue gaps services 1) = [0%Z; 0%Z].
Proof. vm_compute. repeat split. Qed.

(** The worked values of the calculators are exact in binary64 too. *)
Lemma binary64_calculator_values :
  let one := @lit F64Number 1 in
  let half := jdiv one (lit 2) in
  let third := jdiv one (lit 3) in
  let p := calculateMM1Params (jdiv one (lit 2)) (jdiv one one) in
  let q := calculateMultiServerParams one one 2 in
  (jeq (rho p) half && jeq (lq p) half && jeq (wq p) one
   && jeq (ws p) (lit 2) && jeq (ls p) one = true)
  /\ option_map (jeq third) (p0 q) = Some true
  /\ jeq (lq q) third = true.
Proof. vm_compute. repeat split. Qed.

(** ** Exact rational arithmetic *)

Section Rationals.

Local Existing Instance QNumber.
Local Open Scope Q_scope.

Local Abbreviation serverEndTimesAfter := (@serverEndTimesAfter QNumber) (only parsing).
Local Abbreviation timing_rounded := (@timing_rounded QNumber) (only parsing).
Local Abbreviation records_rounded := (@records_rounded QNumber) (only parsing).
(** Inside this section the program is read at [Q]. *)
Local Abbreviation roundTo := (@roundTo QNumber) (only parsing).
Local Abbreviation aget := (@aget QNumber) (only parsing).
Local Abbreviation aset := (@aset QNumber) (only parsing).
Local Abbreviation selectServer := (@selectServer QNumber) (only parsing).
Local Abbreviation scanServer := (@scanServer QNumber) (only parsing).
Local Abbreviation queuedCustomers := (@queuedCustomers QNumber) (only parsing).
Local Abbreviation dispatch := (@dispatch QNumber) (only parsing).
Local Abbreviation serve := (@serve QNumber) (only parsing).
Local Abbreviation cumulate := (@cumulate QNumber) (only parsing).
Local Abbreviation arrivals := (@arrivals QNumber) (only parsing).
Local Abbreviation customers := (@customers QNumber) (only parsing).
Local Abbreviation Math_max := (@Math_max QNumber) (only parsing).
Local Abbreviation Math_min := (@Math_min QNumber) (only parsing).
Local Abbreviation Math_pow := (@Math_pow QNumber) (only parsing).
Local Abbreviation factorial := (@factorial QNumber) (only parsing).
Local Abbreviation lit := (@lit QNumber) (only parsing).
Local Abbreviation erlangSum := (@erlangSum QNumber) (only parsing).
Local Abbreviation calculateMM1Params := (@calculateMM1Params QNumber) (only parsing).
Local Abbreviation calculateMultiServerParams := (@calculateMultiServerParams QNumber) (only parsing).
Local Abbreviation calculateMMcParams := (@calculateMMcParams QNumber) (only parsing).
Local Abbreviation calculateMG1Params := (@calculateMG1Params QNumber) (only parsing).
Local Abbreviation calculateMGCParams := (@calculateMGCParams QNumber) (only parsing).
Local Abbreviation matched := (@matched QNumber) (only parsing).
Local Abbreviation nonnegative := (@nonnegative QNumber) (only parsing).
Local Abbreviation two_decimals := (@two_decimals QNumber) (only parsing).
Local Abbreviation nondecreasing := (@nondecreasing QNumber) (only parsing).
Local Abbreviation timing_ok := (@timing_ok QNumber) (only parsing).
Local Abbreviation records_ok := (@records_ok QNumber) (only parsing).
Local Abbreviation active := (@active QNumber) (only parsing).
Local Abbreviation in_service := (@in_service QNumber) (only parsing).
Local Abbreviation follows_max := (@follows_max QNumber) (only parsing).
Local Abbreviation single_server_fifo := (@single_server_fifo QNumber) (only parsing).

Lemma Qltb_true (x y : Q) : Qltb x y = true <-> x < y.
Proof.
  unfold Qltb. rewrite Qlt_alt. destruct (x ?= y); split; congruence.
Qed.

Lemma Qltb_false (x y : Q) : Qltb x y = false <-> y <= x.
Proof.
  rewrite <- Bool.not_true_iff_false, Qltb_true. split.
  - apply Qnot_lt_le.
  - apply Qle_not_lt.
Qed.

Lemma Qmax_cases (a b : Q) :
  (a < b /\ Math_max a b = b) \/ (b <= a /\ Math_max a b = a).
Proof.
  cbn. destruct (Qltb a b) eqn:H.
  - left. split; [now apply Qltb_true|reflexivity].
  - right. split; [now apply Qltb_false|reflexivity].
Qed.

Lemma roundTo_Q (x : Q) :
  roundTo x 2 == inject_Z (Qfloor (x * 100 + (1 # 2))) / 100.
Proof.
  cbv [roundTo Math_pow jmul jdiv Math_round lit QNumber].
  assert (H : x * (inject_Z 10 * (inject_Z 10 * inject_Z 1)) + (1 # 2)
              == x * 100 + (1 # 2)) by ring.
  rewrite (Qfloor_comp _ _ H). reflexivity.
Qed.

Lemma roundTo_compat (x y : Q) : x == y -> roundTo x 2 == roundTo y 2.
Proof.
  intros H. rewrite !roundTo_Q.
  assert (H' : x * 100 + (1 # 2) == y * 100 + (1 # 2)) by (rewrite H; reflexivity).
  rewrite (Qfloor_comp _ _ H'). reflexivity.
Qed.

Lemma roundTo_mono (x y : Q) : x <= y -> roundTo x 2 <= roundTo y 2.
Proof.
  intros H. rewrite !roundTo_Q.
  apply Qmult_le_compat_r; [|discriminate].
  rewrite <- Zle_Qle. apply Qfloor_resp_le.
  apply Qplus_le_l. apply Qmult_le_compat_r; [assumption|discriminate].
Qed.

Lemma roundTo_grid (x : Q) : grid (roundTo x 2).
Proof.
  exists (Qfloor (x * 100 + (1 # 2))). apply roundTo_Q.
Qed.

Lemma Qfloor_half (n : Z) : Qfloor (inject_Z n + (1 # 2)) = n.
Proof.
  unfold Qfloor, Qplus, inject_Z. simpl.
  symmetry. apply (Z.div_unique _ 2 n 1); lia.
Qed.

Lemma roundTo_fix (q : Q) : grid q -> roundTo q 2 == q.
Proof.
  intros [n Hn]. rewrite roundTo_Q.
  assert (H : q * 100 + (1 # 2) == inject_Z n + (1 # 2)).
  { rewrite Hn. field. }
  rewrite (Qfloor_comp _ _ H), Qfloor_half. symmetry. exact Hn.
Qed.

Lemma grid_compat (x y : Q) : x == y -> grid x -> grid y.
Proof. intros H [n Hn]. exists n. rewrite <- H. exact Hn. Qed.

Lemma grid_zero : grid (lit 0).
Proof. exists 0%Z. reflexivity. Qed.

Lemma grid_plus (x y : Q) : grid x -> grid y -> grid (x + y).
Proof.
  intros [n Hn] [m Hm]. exists (n + m)%Z.
  rewrite Hn, Hm, inject_Z_plus. field.
Qed.

Lemma grid_minus (x y : Q) : grid x -> grid y -> grid (x - y).
Proof.
  intros [n Hn] [m Hm]. exists (n - m)%Z.
  rewrite Hn, Hm. unfold Z.sub. rewrite inject_Z_plus, inject_Z_opp. field.
Qed.

Lemma grid_max (x y : Q) : grid x -> grid y -> grid (Math_max x y).
Proof.
  intros Hx Hy. destruct (Qmax_cases x y) as [[_ ->]|[_ ->]]; assumption.
Qed.

Lemma roundTo_max (x y : Q) :
  roundTo (Math_max x y) 2 == Math_max (roundTo x 2) (roundTo y 2).
Proof.
  destruct (Qmax_cases x y) as [[H ->]|[H ->]];
    destruct (Qmax_cases (roundTo x 2) (roundTo y 2))
      as [[H' ->]|[H' ->]];
    try reflexivity.
  - apply Qle_antisym; [assumption|apply roundTo_mono; now apply Qlt_le_weak].
  - apply Qle_antisym; [now apply Qlt_le_weak|now apply roundTo_mono].
Qed.

(** Reading the interface at [Q]. *)
Ltac at_Q :=
  change (@jle QNumber) with Qle_bool in *;
  change (@jeq QNumber) with Qeq_bool in *;
  change (@jlt QNumber) with Qltb in *;
  change (@jadd QNumber) with Qplus in *;
  change (@jsub QNumber) with Qminus in *;
  change (@jmul QNumber) with Qmult in *;
  change (@jdiv QNumber) with Qdiv in *;
  change lit with inject_Z in *;
  change (@undefined QNumber) with 0 in *;
  change (@num QNumber) with Q in *.

Lemma nonnegative_Forall (l : list Q) :
  nonnegative l = true -> Forall (fun x => 0 <= x) l.
Proof.
  unfold nonnegative. rewrite forallb_forall, Forall_forall.
  intros H x Hx. specialize (H x Hx). at_Q. now apply Qle_bool_iff in H.
Qed.

Lemma two_decimals_Forall (l : list Q) :
  two_decimals l = true -> Forall grid l.
Proof.
  unfold two_decimals. rewrite forallb_forall, Forall_forall.
  intros H x Hx. specialize (H x Hx). at_Q. apply Qeq_bool_iff in H.
  apply (grid_compat H). apply roundTo_grid.
Qed.

Lemma matched_inv (gaps services : list Q) (c : nat) :
  matched gaps services c = true ->
  (1 <= c)%nat /\ (1 <= length gaps)%nat /\ length services = length gaps.
Proof.
  unfold matched. rewrite !andb_true_iff, !Nat.leb_le, Nat.eqb_eq. tauto.
Qed.

Lemma aget_Forall (P : Q -> Prop) (a : list Q) (i : nat) :
  Forall P a -> (i < length a)%nat -> P (aget a i).
Proof.
  intros H Hi. rewrite Forall_forall in H. apply H. unfold aget. now apply nth_In.
Qed.

Lemma aset_Forall (P : Q -> Prop) (a : list Q) :
  forall i v, Forall P a -> P v -> (i < length a)%nat -> Forall P (aset a i v).
Proof.
  induction a as [|h t IH]; intros i v Ha Hv Hi; simpl in *; [lia|].
  inversion Ha; subst. destruct i; constructor; auto. apply IH; auto. lia.
Qed.

Lemma selectServer_lt (ends : list Q) (c : nat) :
  (1 <= c)%nat -> (selectServer ends c < c)%nat.
Proof. intros Hc. pose proof (selectServer_le ends c). lia. Qed.

(** *** The arrival times *)

Lemma cumulate_grid (gaps : list Q) :
  forall cur, Forall grid (cumulate cur gaps).
Proof.
  induction gaps as [|g rest IH]; intros cur; simpl; constructor.
  - apply roundTo_grid.
  - apply IH.
Qed.

Lemma arrivals_grid (gaps : list Q) : Forall grid (arrivals gaps).
Proof.
  unfold arrivals. constructor; [apply grid_zero|apply cumulate_grid].
Qed.

Lemma cumulate_nondecreasing (gaps : list Q) :
  forall (cur p : Q),
    Forall (fun x => 0 <= x) gaps -> p <= roundTo cur 2 ->
    nondecreasing (p :: cumulate cur gaps) = true.
Proof.
  induction gaps as [|g rest IH]; intros cur p Hg Hp.
  - reflexivity.
  - inversion Hg; subst.
    assert (Hstep : p <= roundTo (cur + g) 2).
    { apply (Qle_trans _ _ _ Hp). apply roundTo_mono.
      rewrite <- (Qplus_0_r cur) at 1. now apply Qplus_le_r. }
    cbn [cumulate nondecreasing]. apply andb_true_iff. split.
    + at_Q. now apply Qle_bool_iff.
    + apply IH; [assumption|apply Qle_refl].
Qed.

Lemma arrivals_nondecreasing (gaps : list Q) :
  Forall (fun x => 0 <= x) gaps -> nondecreasing (arrivals gaps) = true.
Proof.
  intros H. unfold arrivals. apply cumulate_nondecreasing.
  - destruct gaps; simpl; [constructor|now inversion H].
  - rewrite (roundTo_fix grid_zero). apply Qle_refl.
Qed.

(** *** One dispatch, on values with two decimals *)

Lemma dispatch_timing (c : nat) (ends : list Q) (arrival service : Q) :
  (1 <= c)%nat -> length ends = c ->
  Forall grid ends -> grid arrival -> grid service ->
  timing_ok (fst (dispatch c ends arrival service)) = true
  /\ Forall grid (snd (dispatch c ends arrival service))
  /\ length (snd (dispatch c ends arrival service)) = c.
Proof.
  intros Hc Hlen Hends Ha Hs.
  pose proof (selectServer_lt ends Hc) as Hi.
  set (i := selectServer ends c) in *.
  assert (Hfree : grid (aget ends i)) by (apply aget_Forall; [assumption|lia]).
  unfold dispatch. fold i. cbn [fst snd].
  set (start := Math_max arrival (aget ends i)).
  assert (Hstart : grid start) by (apply grid_max; assumption).
  assert (Hge : arrival <= start).
  { subst start. destruct (Qmax_cases arrival (aget ends i)) as [[H ->]|[H ->]];
      [now apply Qlt_le_weak|apply Qle_refl]. }
  assert (Hwait : Math_max (inject_Z 0) (start - arrival) == start - arrival).
  { destruct (Qmax_cases (inject_Z 0) (start - arrival)) as [[H ->]|[H ->]];
      at_Q; [reflexivity|].
    apply Qle_antisym; [|assumption].
    rewrite <- (Qplus_opp_r arrival). now apply Qplus_le_l. }
  split; [|split].
  - unfold timing_ok. cbn [arrivalTime startTime endTime serviceTime waitTime turnaroundTime].
    at_Q. rewrite !andb_true_iff, !Qle_bool_iff, !Qeq_bool_iff.
    assert (Hf : grid (start + service)) by (apply grid_plus; assumption).
    assert (Hw : grid (start - arrival)) by (apply grid_minus; assumption).
    repeat split.
    + rewrite (roundTo_fix Hstart). exact Hge.
    + rewrite (roundTo_fix Hf), (roundTo_fix Hstart). reflexivity.
    + rewrite (roundTo_compat Hwait), (roundTo_fix Hw).
      rewrite <- (Qplus_opp_r arrival). now apply Qplus_le_l.
    + rewrite (roundTo_compat Hwait), (roundTo_fix Hw).
      assert (Ht : grid (start + service - arrival))
        by (apply grid_minus; [apply grid_plus|]; assumption).
      rewrite (roundTo_fix Ht). ring.
  - apply aset_Forall; [assumption|apply grid_plus; assumption|].
    at_Q. rewrite Hlen. exact Hi.
  - rewrite aset_length; [assumption|]. at_Q. rewrite Hlen. exact Hi.
Qed.

Lemma serve_timing (c : nat) (arrivalTimes : list Q) :
  (1 <= c)%nat ->
  forall ends services,
    length ends = c -> Forall grid ends ->
    Forall grid arrivalTimes -> Forall grid services ->
    (length arrivalTimes <= length services)%nat ->
    forallb timing_ok (serve c ends arrivalTimes services) = true.
Proof.
  intros Hc. induction arrivalTimes as [|a rest IH];
    intros ends services Hlen Hends Harr Hsvc Hcount.
  - reflexivity.
  - destruct services as [|s services]; [simpl in Hcount; lia|].
    inversion Harr as [|? ? Ha Hrest]. inversion Hsvc as [|? ? Hs Hsvc'].
    destruct (dispatch_timing Hc Hlen Hends Ha Hs) as (Hrow & Hends' & Hlen').
    cbn [serve hd tl]. destruct (dispatch c ends a s) as [row ends'].
    cbn [fst snd] in *. cbn [forallb]. rewrite Hrow. cbn [andb].
    apply IH; auto. simpl in Hcount. lia.
Qed.

Lemma repeat_Forall (P : Q -> Prop) (x : Q) (n : nat) : P x -> Forall P (repeat x n).
Proof. intros H. induction n; simpl; constructor; auto. Qed.

(** What [runSimulation] hands to the engine is well formed: the service
    times are [roundTo] values, one per gap, and the gaps of an arrival trace
    are not negative. *)
Lemma rounded_services_two_decimals (draws : list Q) :
  two_decimals (map (fun x => roundTo x 2) draws) = true.
Proof.
  unfold two_decimals. apply forallb_forall. intros x Hx.
  apply in_map_iff in Hx. destruct Hx as (d & <- & _). at_Q.
  apply Qeq_bool_iff. apply roundTo_fix. apply roundTo_grid.
Qed.

Lemma trace_gaps_nonnegative (maxTime : Z) (l : list Z) :
  arrival_trace maxTime l -> nonnegative (map inject_Z l) = true.
Proof.
  intros (Hhd & Htl & _). unfold nonnegative. apply forallb_forall.
  intros x Hx. apply in_map_iff in Hx. destruct Hx as (g & <- & Hg). at_Q.
  apply Qle_bool_iff. change 0 with (inject_Z 0). rewrite <- Zle_Qle.
  destruct l as [|g0 rest]; [contradiction|]. simpl in Hhd, Htl.
  destruct Hg as [<-|Hg].
  - injection Hhd as ->. lia.
  - rewrite Forall_forall in Htl. specialize (Htl g Hg). lia.
Qed.

Lemma trace_matched (maxTime : Z) (l : list Z) (draws : list Q) (c : nat) :
  arrival_trace maxTime l -> length draws = length l -> (1 <= c)%nat ->
  matched (map inject_Z l) (map (fun x => roundTo x 2) draws) c = true.
Proof.
  intros (Hhd & _) Hlen Hc. unfold matched. rewrite !length_map.
  destruct l as [|g0 rest]; [discriminate|].
  rewrite !andb_true_iff, !Nat.leb_le, Nat.eqb_eq. simpl in *.
  repeat split; [assumption|lia|exact Hlen].
Qed.

(** In exact arithmetic, for every well-formed input whose gaps are not
    negative and whose service times have two decimals, the two sums hold as
    they stand: end = start + service and turnaround = wait + service. *)
Lemma records_exact_in_rationals :
  forall (gaps services : list Q) (serverCount : nat),
    matched gaps services serverCount = true ->
    nonnegative gaps = true ->
    two_decimals services = true ->
    records_ok (customers gaps services serverCount) = true.
Proof.
  intros gaps services c Hm Hg Hs.
  apply matched_inv in Hm. destruct Hm as (Hc & Hgaps & Hlen).
  apply nonnegative_Forall in Hg. apply two_decimals_Forall in Hs.
  unfold records_ok, customers. rewrite serve_arrivalTime.
  rewrite (arrivals_nondecreasing Hg). cbn [andb].
  apply serve_timing; auto.
  - apply repeat_length.
  - apply repeat_Forall. apply grid_zero.
  - apply arrivals_grid.
  - pose proof (@arrivals_length QNumber gaps) as Hl. at_Q. lia.
Qed.

Lemma serve_reports_rounded (c : nat) (arrivalTimes : list Q) :
  forall ends services,
    Forall (fun r => grid (endTime r) /\ grid (turnaroundTime r))
           (serve c ends arrivalTimes services).
Proof.
  induction arrivalTimes as [|a rest IH]; intros ends services.
  - constructor.
  - cbn [serve].
    destruct (dispatch c ends a (hd undefined services)) as [row ends'] eqn:Hd.
    constructor; [|apply IH].
    apply (f_equal fst) in Hd. cbn [fst] in Hd. subst row.
    unfold dispatch. cbn [fst endTime turnaroundTime].
    split; apply roundTo_grid.
Qed.

Lemma timing_ok_rounded (r : Customer) :
  grid (endTime r) -> grid (turnaroundTime r) ->
  timing_ok r = true -> timing_rounded r = true.
Proof.
  intros Hend Hturn. unfold timing_ok, timing_rounded. at_Q.
  rewrite !andb_true_iff, !Qle_bool_iff, !Qeq_bool_iff.
  intros (((Hstart & He) & Hwait) & Ht). repeat split; try assumption.
  - rewrite <- (roundTo_compat He). symmetry. now apply roundTo_fix.
  - rewrite <- (roundTo_compat Ht). symmetry. now apply roundTo_fix.
Qed.



(** *** Server selection *)

Lemma serve_cons (c : nat) (ends : list Q) (a : Q) (rest services : list Q) :
  serve c ends (a :: rest) services
  = fst (dispatch c ends a (hd 0 services))
    :: serve c (snd (dispatch c ends a (hd 0 services))) rest (tl services).
Proof.
  cbn [serve]. at_Q. destruct (dispatch c ends a (hd 0 services)). reflexivity.
Qed.

Lemma serve_serviceTime (c : nat) (arrivalTimes : list Q) :
  forall ends services,
    length arrivalTimes = length services ->
    map serviceTime (serve c ends arrivalTimes services) = services.
Proof.
  induction arrivalTimes as [|a rest IH]; intros ends [|s services] Hlen;
    try discriminate Hlen.
  - reflexivity.
  - rewrite serve_cons. cbn [map hd tl].
    rewrite IH by (simpl in Hlen; injection Hlen as Hlen; exact Hlen).
    reflexivity.
Qed.

Lemma scanServer_scanned (ends : list Q) (k : nat) (best : nat * Q) :
  scanned ends k best -> scanned ends (S k) (scanServer ends best (S k)).
Proof.
  destruct best as [i e]. intros (Hi & He & Hmin & Hlow). simpl in *. subst e.
  unfold scanServer. at_Q. destruct (Qltb (aget ends (S k)) (aget ends i)) eqn:Hlt.
  - apply Qltb_true in Hlt. repeat split; simpl.
    + lia.
    + intros j Hj. destruct (Nat.eq_dec j (S k)) as [->|Hne]; [apply Qle_refl|].
      apply Qlt_le_weak. apply (Qlt_le_trans _ _ _ Hlt). apply Hmin. lia.
    + intros j Hj. apply (Qlt_le_trans _ _ _ Hlt). apply Hmin. lia.
  - apply Qltb_false in Hlt. repeat split; simpl.
    + lia.
    + intros j Hj. destruct (Nat.eq_dec j (S k)) as [->|Hne]; [assumption|].
      apply Hmin. lia.
    + assumption.
Qed.

Lemma selectServer_scanned (ends : list Q) (n : nat) :
  scanned ends n (fold_left (scanServer ends) (seq 1 n) (O, aget ends 0)).
Proof.
  induction n as [|n IH].
  - simpl. repeat split; simpl; try lia.
    intros j Hj. replace j with O by lia. apply Qle_refl.
  - rewrite seq_S, fold_left_app. simpl. now apply scanServer_scanned.
Qed.

Lemma selectServer_earliest_lowest (ends : list Q) (c : nat) :
  (1 <= c)%nat -> earliest_lowest ends c (selectServer ends c).
Proof.
  intros Hc. unfold selectServer.
  destruct (selectServer_scanned ends (c - 1)) as (Hi & _ & Hmin & Hlow).
  unfold aget in *. at_Q. repeat split.
  - lia.
  - intros j Hj. apply Hmin. lia.
  - exact Hlow.
Qed.

(** *** No server is double-booked *)

Lemma serve_servers (c : nat) (arrivalTimes : list Q) :
  (1 <= c)%nat ->
  forall ends services,
    Forall (fun r => In (assignedServer r) (seq 1 c))
           (serve c ends arrivalTimes services).
Proof.
  intros Hc. induction arrivalTimes as [|a rest IH]; intros ends services.
  - constructor.
  - rewrite serve_cons. constructor; [|apply IH].
    unfold dispatch. cbn [fst assignedServer]. apply in_seq.
    pose proof (selectServer_lt ends Hc). lia.
Qed.

(** A later customer of a server starts no earlier than the time at which the
    server is free now. *)
Lemma serve_starts (c : nat) (arrivalTimes : list Q) :
  (1 <= c)%nat ->
  forall ends services,
    length ends = c -> Forall (fun x => 0 <= x) services ->
    (length arrivalTimes <= length services)%nat ->
    Forall (fun r => roundTo (aget ends (assignedServer r - 1)) 2 <= startTime r)
           (serve c ends arrivalTimes services).
Proof.
  intros Hc. induction arrivalTimes as [|a rest IH];
    intros ends services Hlen Hsvc Hcount.
  - constructor.
  - destruct services as [|s services]; [simpl in Hcount; lia|].
    inversion Hsvc as [|? ? Hs Hsvc'].
    rewrite serve_cons. cbn [hd tl].
    pose proof (selectServer_lt ends Hc) as Hi.
    unfold dispatch. cbn [fst snd].
    set (i := selectServer ends c) in *.
    set (start := Math_max a (aget ends i)).
    assert (Hfree : aget ends i <= start).
    { subst start. destruct (Qmax_cases a (aget ends i)) as [[Hmx ->]|[Hmx ->]];
        [apply Qle_refl|assumption]. }
    constructor.
    + cbn [assignedServer startTime]. replace (i + 1 - 1)%nat with i by lia.
      now apply roundTo_mono.
    + assert (Hi' : (i < length ends)%nat) by (at_Q; rewrite Hlen; exact Hi).
      specialize (IH (aset ends i (jadd start s)) services).
      rewrite aset_length in IH by exact Hi'.
      specialize (IH Hlen Hsvc' ltac:(simpl in Hcount; lia)).
      eapply Forall_impl; [|exact IH].
      intros r Hr. cbv beta in Hr.
      refine (Qle_trans _ _ _ _ Hr).
      apply roundTo_mono.
      destruct (Nat.eq_dec (assignedServer r - 1) i) as [->|Hne].
      * rewrite aset_same by exact Hi'. at_Q.
        apply (Qle_trans _ _ _ Hfree).
        rewrite <- (Qplus_0_r start) at 1. now apply Qplus_le_r.
      * rewrite aset_other by assumption. apply Qle_refl.
Qed.

Lemma serve_nodup (c : nat) (arrivalTimes : list Q) (t : Q) :
  (1 <= c)%nat ->
  forall ends services,
    length ends = c -> Forall (fun x => 0 <= x) services ->
    (length arrivalTimes <= length services)%nat ->
    NoDup (map assignedServer (filter (active t) (serve c ends arrivalTimes services))).
Proof.
  intros Hc. induction arrivalTimes as [|a rest IH];
    intros ends services Hlen Hsvc Hcount.
  - constructor.
  - destruct services as [|s services]; [simpl in Hcount; lia|].
    inversion Hsvc as [|? ? Hs Hsvc'].
    rewrite serve_cons. cbn [hd tl filter].
    pose proof (selectServer_lt ends Hc) as Hi.
    assert (Hi' : (selectServer ends c < length ends)%nat)
      by (at_Q; rewrite Hlen; exact Hi).
    assert (Hlen' : length (snd (dispatch c ends a s)) = c).
    { unfold dispatch. cbn [snd]. rewrite aset_length; assumption. }
    specialize (IH (snd (dispatch c ends a s)) services Hlen' Hsvc'
                   ltac:(simpl in Hcount; lia)).
    destruct (active t (fst (dispatch c ends a s))) eqn:Hact; [|exact IH].
    cbn [map]. constructor; [|exact IH].
    intros Hin. apply in_map_iff in Hin. destruct Hin as (r & Hsame & Hr).
    apply filter_In in Hr. destruct Hr as [Hr Hract].
    pose proof (serve_starts rest Hc (snd (dispatch c ends a s)) Hlen' Hsvc'
                  ltac:(simpl in Hcount; lia)) as Hstarts.
    rewrite Forall_forall in Hstarts. specialize (Hstarts r Hr).
    cbv beta in Hstarts. rewrite Hsame in Hstarts.
    unfold dispatch in Hstarts, Hact. cbn [fst snd assignedServer] in Hstarts.
    replace (selectServer ends c + 1 - 1)%nat with (selectServer ends c) in Hstarts by lia.
    rewrite aset_same in Hstarts by exact Hi'.
    unfold active in Hact, Hract. cbn [startTime endTime] in Hact.
    at_Q. apply andb_true_iff in Hact, Hract.
    destruct Hact as [_ Hbefore]. destruct Hract as [Hstarted _].
    apply Qltb_true in Hbefore. apply Qle_bool_iff in Hstarted.
    apply (Qlt_irrefl t). apply (Qlt_le_trans _ _ _ Hbefore).
    apply (Qle_trans _ _ _ Hstarts Hstarted).
Qed.

(** The record of the [k]-th arrival is the dispatch of that arrival on the
    table the arrivals before it have left. *)
Lemma serve_nth (c : nat) (arrivalTimes : list Q) :
  forall ends services k r,
    nth_error (serve c ends arrivalTimes services) k = Some r ->
    let table := serverEndTimesAfter c ends (firstn k arrivalTimes) services in
    r = fst (dispatch c table (nth k arrivalTimes 0) (nth k services 0))
    /\ serverEndTimesAfter c ends (firstn (S k) arrivalTimes) services
       = snd (dispatch c table (nth k arrivalTimes 0) (nth k services 0)).
Proof.
  induction arrivalTimes as [|a rest IH]; intros ends services k r Hk.
  - destruct k; discriminate Hk.
  - rewrite serve_cons in Hk. destruct k as [|k].
    + cbn [nth_error] in Hk. injection Hk as <-.
      cbn [firstn serverEndTimesAfter nth]. at_Q.
      destruct services as [|s services]; split; reflexivity.
    + cbn [nth_error] in Hk. apply IH in Hk. cbv zeta in Hk.
      cbn [firstn serverEndTimesAfter nth] in *. at_Q.
      destruct services as [|s services]; cbn [hd tl nth] in *.
      * destruct k; exact Hk.
      * exact Hk.
Qed.

(** C3.  With at least one server and service times that are not negative,
    there is one record for every arrival, and the [k]-th arrival is
    dispatched to the server with the smallest next-available time in the
    table the earlier arrivals have left, the lowest-numbered one on a tie: it
    starts there at the larger of its arrival time and that next-available
    time, and the server is next available when its service ends.  Hence at
    every instant [t] at most [serverCount] customers of the returned records
    are in service ([startTime <= t < endTime]). *)
Theorem servers_never_double_booked :
  forall (gaps services : list Q) (serverCount : nat),
    matched gaps services serverCount = true ->
    nonnegative services = true ->
    let rows := customers gaps services serverCount in
    length rows = length gaps
    /\ (forall k r,
          nth_error rows k = Some r ->
          let serverEndTimes :=
            serverEndTimesAfter serverCount (repeat 0 serverCount)
              (firstn k (arrivals gaps)) services in
          exists i,
            earliest_lowest serverEndTimes serverCount i
            /\ assignedServer r = (i + 1)%nat
            /\ arrivalTime r = nth k (arrivals gaps) 0
            /\ serviceTime r = nth k services 0
            /\ startTime r
               = roundTo (Math_max (arrivalTime r) (nth i serverEndTimes 0)) 2
            /\ endTime r
               = roundTo (Math_max (arrivalTime r) (nth i serverEndTimes 0)
                          + serviceTime r) 2
            /\ serverEndTimesAfter serverCount (repeat 0 serverCount)
                 (firstn (S k) (arrivals gaps)) services
               = aset serverEndTimes i
                   (Math_max (arrivalTime r) (nth i serverEndTimes 0)
                    + serviceTime r))
    /\ forall t : Q, (in_service t rows <= serverCount)%nat.
Proof.
  intros gaps services c Hm Hs rows. subst rows.
  apply matched_inv in Hm. destruct Hm as (Hc & Hgaps & Hlen).
  apply nonnegative_Forall in Hs. split; [|split].
  - unfold customers. rewrite serve_length.
    pose proof (@arrivals_length QNumber gaps) as Hl. at_Q. lia.
  - intros k r Hk. cbv zeta. unfold customers in Hk.
    apply serve_nth in Hk. cbv zeta in Hk.
    destruct Hk as [-> Hnext].
    exists (selectServer
              (serverEndTimesAfter c (repeat 0 c) (firstn k (arrivals gaps))
                 services) c).
    split; [now apply selectServer_earliest_lowest|].
    split; [reflexivity|]. split; [reflexivity|]. split; [reflexivity|].
    split; [reflexivity|]. split; [reflexivity|]. exact Hnext.
  - intros t. unfold in_service, customers.
    assert (Hcount : (length (arrivals gaps) <= length services)%nat).
    { pose proof (@arrivals_length QNumber gaps) as Hl. at_Q. lia. }
    pose proof (serve_nodup (arrivals gaps) t Hc (repeat (lit 0) c) (repeat_length _ _)
                  Hs Hcount) as Hnd.
    pose proof (serve_servers (arrivals gaps) Hc (repeat (lit 0) c) services) as Hin.
    rewrite <- (length_map assignedServer).
    apply Nat.le_trans with (length (seq 1 c)); [|rewrite length_seq; lia].
    apply NoDup_incl_length; [exact Hnd|].
    intros x Hx. apply in_map_iff in Hx. destruct Hx as (r & <- & Hr).
    apply filter_In in Hr. destruct Hr as [Hr _].
    rewrite Forall_forall in Hin. now apply Hin.
Qed.

Lemma servers_never_double_booked_witness :
  matched [0; 1; 1] [5 # 2; 5 # 2; 1] 2 = true
  /\ nonnegative [5 # 2; 5 # 2; 1] = true
  /\ length (customers [0; 1; 1] [5 # 2; 5 # 2; 1] 2) = 3%nat
  /\ forall t : Q,
       Nat.le (in_service t (customers [0; 1; 1] [5 # 2; 5 # 2; 1] 2)) 2.
Proof.
  split; [reflexivity|]. split; [reflexivity|].
  destruct (@servers_never_double_booked [0; 1; 1] [5 # 2; 5 # 2; 1] 2
              eq_refl eq_refl) as (Hlen & _ & Hbound).
  split; [exact Hlen|exact Hbound].
Defined.

(** *** One server *)

Lemma Qmax_compat_l (a a' b : Q) : a == a' -> Math_max a b == Math_max a' b.
Proof.
  intros H.
  destruct (Qmax_cases a b) as [[H1 ->]|[H1 ->]];
    destruct (Qmax_cases a' b) as [[H2 ->]|[H2 ->]]; try reflexivity; try assumption.
  - rewrite H in H1. exfalso. apply (Qlt_irrefl a'). now apply (Qlt_le_trans _ b).
  - rewrite H in H1. exfalso. apply (Qlt_irrefl a'). now apply (Qlt_le_trans _ b).
Qed.

Lemma serve_single_servers (arrivalTimes : list Q) :
  forall ends services,
    forallb (fun r => (assignedServer r =? 1)%nat) (serve 1 ends arrivalTimes services)
    = true.
Proof.
  induction arrivalTimes as [|a rest IH]; intros ends services.
  - reflexivity.
  - rewrite serve_cons. cbn [forallb]. rewrite IH.
    unfold dispatch. cbn [fst assignedServer]. reflexivity.
Qed.

Lemma serve_follows (arrivalTimes : list Q) :
  forall (e : Q) services,
    Forall grid arrivalTimes ->
    follows_max (roundTo e 2) (serve 1 [e] arrivalTimes services) = true.
Proof.
  induction arrivalTimes as [|a rest IH]; intros e services Harr.
  - reflexivity.
  - inversion Harr as [|? ? Ha Hrest].
    rewrite serve_cons. cbn [follows_max]. apply andb_true_iff. split.
    + unfold dispatch. cbn [fst startTime arrivalTime]. at_Q.
      apply Qeq_bool_iff. change (selectServer [e] 1) with O.
      change (aget [e] 0) with e.
      rewrite roundTo_max. apply Qmax_compat_l. now apply roundTo_fix.
    + unfold dispatch at 1 2. cbn [fst snd endTime].
      change (selectServer [e] 1) with O. change (aget [e] 0) with e.
      cbn [aset]. now apply IH.
Qed.



(** *** The calculators *)

Lemma Math_pow_Q (x : Q) (n : nat) : Math_pow x n == x ^ Z.of_nat n.
Proof.
  induction n as [|n IH].
  - reflexivity.
  - cbn [Math_pow]. at_Q. rewrite IH.
    replace (Z.of_nat (S n)) with (1 + Z.of_nat n)%Z by lia.
    rewrite Qpower_plus' by lia. reflexivity.
Qed.

Lemma Qfact_S (n : nat) : Qfact (S n) == inject_Z (Z.of_nat (S n)) * Qfact n.
Proof.
  unfold Qfact. rewrite <- inject_Z_mult. apply inject_Z_injective.
  change (fact (S n)) with (S n * fact n)%nat. lia.
Qed.

Lemma factorial_loop (k : nat) :
  fold_left (fun result i => jmul result (lit (Z.of_nat i))) (seq 2 k) (lit 1)
  == Qfact (S k).
Proof.
  induction k as [|k IH].
  - reflexivity.
  - rewrite seq_S, fold_left_app. cbn [fold_left]. at_Q. rewrite IH.
    rewrite (Qfact_S (S k)). replace (2 + k)%nat with (S (S k)) by lia. ring.
Qed.

Lemma factorial_Q (n : nat) : factorial n == Qfact n.
Proof.
  unfold factorial. destruct (Nat.leb_spec n 1) as [Hle|Hgt].
  - destruct n as [|[|n]]; [reflexivity|reflexivity|lia].
  - rewrite factorial_loop. replace (S (n - 1)) with n by lia. reflexivity.
Qed.

Lemma erlangSum_Q (lambda mu : Q) (c : nat) :
  erlangSum lambda mu c
  == Qsum (fun n => (lambda / mu) ^ Z.of_nat n / Qfact n) c.
Proof.
  unfold erlangSum. induction c as [|c IH].
  - reflexivity.
  - rewrite seq_S, fold_left_app. cbn [fold_left Qsum Nat.add]. at_Q.
    rewrite IH, Math_pow_Q, factorial_Q. reflexivity.
Qed.

(** C7.  The M/M/1 calculator returns rho = lambda/mu, Lq = rho^2/(1 - rho),
    Wq = Lq/lambda, Ws = Wq + 1/mu and Ls = lambda Ws; a mean inter-arrival
    time of 2 and a mean service time of 1 (lambda = 1/2, mu = 1) give
    rho = 1/2, Lq = 1/2, Wq = 1, Ws = 2, Ls = 1. *)
Theorem mm1_formulas :
  (forall lambda mu : Q,
      0 < lambda -> lambda < mu ->
      let p := calculateMM1Params lambda mu in
      rho p == lambda / mu
      /\ lq p == (lambda / mu) ^ 2 / (1 - lambda / mu)
      /\ wq p == (lambda / mu) ^ 2 / (1 - lambda / mu) / lambda
      /\ ws p == (lambda / mu) ^ 2 / (1 - lambda / mu) / lambda + 1 / mu
      /\ ls p == lambda * ((lambda / mu) ^ 2 / (1 - lambda / mu) / lambda + 1 / mu))
  /\ (let p := calculateMM1Params (jdiv (lit 1) (lit 2)) (jdiv (lit 1) (lit 1)) in
      rho p == 1 # 2 /\ lq p == 1 # 2 /\ wq p == 1 /\ ws p == 2 /\ ls p == 1).
Proof.
  split.
  - intros lambda mu _ _ p. subst p. unfold calculateMM1Params.
    cbn [rho lq wq ws ls]. at_Q.
    rewrite (Math_pow_Q (lambda / mu) 2). change (Z.of_nat 2) with 2%Z.
    repeat split; reflexivity.
  - vm_compute. repeat split; reflexivity.
Qed.

Lemma mm1_formulas_witness :
  0 < 1 # 3 /\ 1 # 3 < 1 # 2
  /\ lq (calculateMM1Params (1 # 3) (1 # 2))
     == ((1 # 3) / (1 # 2)) ^ 2 / (1 - (1 # 3) / (1 # 2)).
Proof.
  split; [reflexivity|]. split; [reflexivity|].
  apply (proj1 mm1_formulas (1 # 3) (1 # 2)); reflexivity.
Defined.

(** The Erlang-C fields, shared by both variants of the calculator. *)
Lemma erlangC_fields (lambda mu : Q) (c : nat) :
  let p := calculateMMcParams lambda mu c in
  calculateMultiServerParams lambda mu c = p
  /\ rho p == erlang_rho lambda mu c
  /\ (exists v, p0 p = Some v /\ v == erlang_p0 lambda mu c)
  /\ lq p == erlang_Lq lambda mu c
  /\ wq p == erlang_Wq lambda mu c
  /\ ws p == erlang_Wq lambda mu c + 1 / mu
  /\ ls p == lambda * (erlang_Wq lambda mu c + 1 / mu).
Proof.
  intros p. subst p. unfold calculateMultiServerParams, calculateMMcParams.
  cbn [rho p0 lq wq ws ls]. at_Q.
  assert (Hp0 : 1 / (erlangSum lambda mu c
                     + Math_pow (lambda / mu) c
                       / (factorial c * (1 - lambda / (inject_Z (Z.of_nat c) * mu))))
                == erlang_p0 lambda mu c).
  { unfold erlang_p0, erlang_rho.
    rewrite erlangSum_Q, Math_pow_Q, factorial_Q. unfold Qdiv at 1.
    apply Qmult_1_l. }
  assert (Hlq : 1 / (erlangSum lambda mu c
                     + Math_pow (lambda / mu) c
                       / (factorial c * (1 - lambda / (inject_Z (Z.of_nat c) * mu))))
                * Math_pow (lambda / mu) c * (lambda / (inject_Z (Z.of_nat c) * mu))
                / (factorial c
                   * Math_pow (1 - lambda / (inject_Z (Z.of_nat c) * mu)) 2)
                == erlang_Lq lambda mu c).
  { rewrite Hp0. unfold erlang_Lq, erlang_rho.
    rewrite !Math_pow_Q, factorial_Q. reflexivity. }
  split; [reflexivity|]. split; [reflexivity|].
  split; [eexists; split; [reflexivity|exact Hp0]|].
  unfold erlang_Wq. rewrite Hlq. repeat split; reflexivity.
Qed.

(** C6.  For rho = lambda/(c mu) < 1 the multi-server calculator (under either
    of its names) returns the Erlang-C values
    p0 = 1 / (sum_{n<c} (lambda/mu)^n/n! + (lambda/mu)^c/(c!(1 - rho))),
    Lq = p0 (lambda/mu)^c rho / (c!(1 - rho)^2), Wq = Lq/lambda,
    Ws = Wq + 1/mu, Ls = lambda Ws; for lambda = 1, mu = 1, c = 2 it returns
    p0 = 1/3 and Lq = 1/3. *)
Theorem erlangC_formulas :
  (forall (lambda mu : Q) (c : nat),
      0 < lambda -> 0 < mu -> (1 <= c)%nat -> erlang_rho lambda mu c < 1 ->
      let p := calculateMultiServerParams lambda mu c in
      calculateMMcParams lambda mu c = p
      /\ rho p == lambda / (inject_Z (Z.of_nat c) * mu)
      /\ (exists v, p0 p = Some v /\ v == erlang_p0 lambda mu c)
      /\ lq p == erlang_Lq lambda mu c
      /\ wq p == erlang_Lq lambda mu c / lambda
      /\ ws p == erlang_Lq lambda mu c / lambda + 1 / mu
      /\ ls p == lambda * (erlang_Lq lambda mu c / lambda + 1 / mu))
  /\ (let p := calculateMultiServerParams (lit 1) (lit 1) 2 in
      (exists v, p0 p = Some v /\ v == 1 # 3) /\ lq p == 1 # 3).
Proof.
  split.
  - intros lambda mu c _ _ _ _ p. subst p.
    destruct (erlangC_fields lambda mu c) as (Hsame & Hrho & Hp0 & Hlq & Hwq & Hws & Hls).
    rewrite Hsame. repeat split; assumption.
  - vm_compute. split; [eexists; split; reflexivity|reflexivity].
Qed.

Lemma erlangC_formulas_witness :
  0 < 3 /\ 0 < 2 /\ (1 <= 2)%nat /\ erlang_rho 3 2 2%nat < 1
  /\ lq (calculateMultiServerParams 3 2 2%nat) == erlang_Lq 3 2 2%nat.
Proof.
  split; [reflexivity|]. split; [reflexivity|]. split; [lia|]. split; [reflexivity|].
  apply (proj1 erlangC_formulas 3 2 2%nat); try reflexivity. lia.
Defined.

(** C8.  The M/G/c calculator returns the Erlang-C Wq of the same lambda,
    mu = 1/meanServiceTime and c, multiplied by (1 + Cs^2)/2 with
    Cs^2 = 1/shapeK, and derives Lq = lambda Wq, Ws = Wq + meanServiceTime and
    Ls = lambda Ws from that product. *)
Theorem mgc_scales_erlangC :
  forall (lambda serviceMeanTime shapeK : Q) (c : nat),
    0 < lambda -> 0 < serviceMeanTime -> (2 <= c)%nat -> 1 # 10 <= shapeK ->
    erlang_rho lambda (1 / serviceMeanTime) c < 1 ->
    let g := calculateMGCParams lambda serviceMeanTime c shapeK in
    let m := calculateMMcParams lambda (1 / serviceMeanTime) c in
    Cs_squared g = Some (1 / shapeK)
    /\ wq m == erlang_Wq lambda (1 / serviceMeanTime) c
    /\ wq g == wq m * ((1 + 1 / shapeK) / 2)
    /\ wq g == erlang_Wq lambda (1 / serviceMeanTime) c * ((1 + 1 / shapeK) / 2)
    /\ lq g == lambda * wq g
    /\ ws g == wq g + serviceMeanTime
    /\ ls g == lambda * ws g.
Proof.
  intros lambda s k c _ _ _ _ _ g m. subst g m.
  destruct (erlangC_fields lambda (1 / s) c) as (_ & _ & _ & _ & Hwq & _).
  cbv zeta in Hwq.
  unfold calculateMGCParams. cbn [Cs_squared wq lq ws ls]. at_Q.
  split; [reflexivity|]. split; [exact Hwq|]. split; [reflexivity|].
  split; [rewrite Hwq; reflexivity|]. repeat split; reflexivity.
Qed.

Lemma mgc_scales_erlangC_witness :
  0 < 1 /\ 0 < 1 /\ (2 <= 2)%nat /\ 1 # 10 <= 2 /\ erlang_rho 1 (1 / 1) 2%nat < 1
  /\ wq (calculateMGCParams 1 1 2%nat 2)
     == erlang_Wq 1 (1 / 1) 2%nat * ((1 + 1 / 2) / 2).
Proof.
  split; [reflexivity|]. split; [reflexivity|]. split; [lia|].
  split; [discriminate|]. split; [reflexivity|].
  apply (@mgc_scales_erlangC 1 1 2 2%nat);
    first [reflexivity | discriminate | apply Nat.le_refl].
Defined.

End Rationals.

(** ** Exact real arithmetic: the cumulative-probability table *)

Section RealTable.

Local Existing Instance RNumber.
Local Existing Instance RExponential.
Local Open Scope R_scope.

Local Abbreviation cpLoop := (@cpLoop RNumber RExponential) (only parsing).
Local Abbreviation cpCalc := (@cpCalc RNumber RExponential) (only parsing).
Local Abbreviation Math_pow := (@Math_pow RNumber) (only parsing).
Local Abbreviation factorial := (@factorial RNumber) (only parsing).
Local Abbreviation Math_min := (@Math_min RNumber) (only parsing).

(** Reading the interface at [R]. *)
Ltac at_R :=
  change (@jlt RNumber) with Rltb in *;
  change (@jadd RNumber) with Rplus in *;
  change (@jmul RNumber) with Rmult in *;
  change (@jdiv RNumber) with Rdiv in *;
  change (@jneg RNumber) with Ropp in *;
  change (@lit RNumber) with IZR in *;
  change (@Math_exp RNumber RExponential) with exp in *;
  change (@num RNumber) with R in *.

Lemma Rltb_true (x y : R) : Rltb x y = true <-> x < y.
Proof. unfold Rltb. destruct (Rlt_dec x y); split; auto; discriminate. Qed.

Lemma Rltb_false (x y : R) : Rltb x y = false <-> y <= x.
Proof.
  unfold Rltb. destruct (Rlt_dec x y); split; auto; try discriminate; lra.
Qed.

Lemma Math_pow_R (x : R) (n : nat) : Math_pow x n = x ^ n.
Proof.
  induction n as [|n IH]; cbn [Math_pow pow]; [reflexivity|].
  rewrite IH. reflexivity.
Qed.

Lemma factorial_loop_R (k : nat) :
  fold_left (fun result i => jmul result (lit (Z.of_nat i))) (seq 2 k) (lit 1)
  = INR (fact (S k)).
Proof.
  induction k as [|k IH].
  - simpl. lra.
  - rewrite seq_S, fold_left_app. cbn [fold_left]. rewrite IH.
    at_R. rewrite <- INR_IZR_INZ. replace (2 + k)%nat with (S (S k)) by lia.
    change (fact (S (S k))) with (S (S k) * fact (S k))%nat.
    rewrite mult_INR. ring.
Qed.

Lemma factorial_R (n : nat) : factorial n = INR (fact n).
Proof.
  unfold factorial. destruct (Nat.leb_spec n 1) as [Hle|Hgt].
  - destruct n as [|[|n]]; [simpl; lra|simpl; lra|lia].
  - rewrite factorial_loop_R. replace (S (n - 1)) with n by lia. reflexivity.
Qed.

(** *** The partial sums of the Poisson law stay below 1 *)

Lemma exp_partial_sum (x : R) (n : nat) :
  0 <= x -> sum_f_R0 (fun i => / INR (fact i) * x ^ i) n <= exp x.
Proof.
  intros Hx. apply sum_incr.
  - unfold exp. destruct (exist_exp x) as [l Hl]. exact Hl.
  - intros i. apply Rmult_le_pos.
    + left. apply Rinv_0_lt_compat. apply INR_fact_lt_0.
    + now apply pow_le.
Qed.

Lemma poisson_cdf_scal (m : R) (n : nat) :
  poisson_cdf m n = exp (- m) * sum_f_R0 (fun i => / INR (fact i) * m ^ i) n.
Proof.
  unfold poisson_cdf. rewrite scal_sum. apply sum_eq.
  intros i _. unfold poisson_pmf. field. apply INR_fact_neq_0.
Qed.

Lemma poisson_cdf_le_1 (m : R) (n : nat) : 0 <= m -> poisson_cdf m n <= 1.
Proof.
  intros Hm. rewrite poisson_cdf_scal.
  replace 1 with (exp (- m) * exp m).
  - apply Rmult_le_compat_l; [left; apply exp_pos|now apply exp_partial_sum].
  - rewrite <- exp_plus. replace (- m + m) with 0 by ring. apply exp_0.
Qed.

Lemma poisson_below_S (m : R) (count : nat) :
  poisson_below m count + poisson_pmf m count = poisson_below m (S count).
Proof.
  destruct count as [|j]; cbn [poisson_below]; unfold poisson_cdf.
  - simpl. ring.
  - reflexivity.
Qed.

(** *** The loop of [cpCalc] *)

Lemma Math_min_R (x : R) : x <= 1 -> Math_min x 1 = x.
Proof.
  intros H. change (Math_min x 1) with (if Rltb 1 x then 1 else x).
  now rewrite (proj2 (Rltb_false _ _) H).
Qed.

Lemma cpLoop_step (fuel : nat) (m : R) (count : nat) (cp : R) :
  cp < 9999 / 10000 -> (count < 200)%nat ->
  cpLoop (S fuel) m count cp
  = (Math_min (cp + exp (- m) * m ^ count / INR (fact count)) 1, cp)
    :: cpLoop fuel m (S count) (cp + exp (- m) * m ^ count / INR (fact count)).
Proof.
  intros Hcp Hcount. cbn [cpLoop].
  rewrite <- (Math_pow_R m count), <- (factorial_R count). at_R.
  rewrite (proj2 (Rltb_true _ _) Hcp).
  rewrite (proj2 (Nat.ltb_lt _ _) Hcount). reflexivity.
Qed.

Lemma cpLoop_stop (fuel : nat) (m : R) (count : nat) (cp : R) :
  9999 / 10000 <= cp -> cpLoop fuel m count cp = [].
Proof.
  intros Hcp. destruct fuel; cbn [cpLoop]; [reflexivity|]. at_R.
  rewrite (proj2 (Rltb_false _ _) Hcp). reflexivity.
Qed.

(** The rows the loop pushes from [count] on, when the running sum is
    P(X < count): row [k] holds P(X <= count + k) and P(X < count + k); the
    loop goes on while P(X < .) is below 0.9999 and fuel lasts. *)
Lemma cpLoop_rows (m : R) :
  0 <= m ->
  forall fuel count,
    (fuel + count = 200)%nat ->
    let rows := cpLoop fuel m count (poisson_below m count) in
    (length rows <= fuel)%nat
    /\ (forall k, (k < length rows)%nat ->
          nth k rows (0, 0)
          = (poisson_cdf m (count + k), poisson_below m (count + k))
          /\ poisson_below m (count + k) < 9999 / 10000)
    /\ (length rows = fuel
        \/ 9999 / 10000 <= poisson_below m (count + length rows)).
Proof.
  intros Hm. induction fuel as [|fuel IH]; intros count Hsum rows; subst rows.
  - cbn [cpLoop length]. split; [lia|]. split; [|left; reflexivity].
    intros k Hk. lia.
  - destruct (Rlt_dec (poisson_below m count) (9999 / 10000)) as [Hlt|Hge].
    + rewrite cpLoop_step by (assumption || lia).
      change (exp (- m) * m ^ count / INR (fact count)) with (poisson_pmf m count).
      rewrite poisson_below_S.
      specialize (IH (S count) ltac:(lia)). cbv zeta in IH.
      destruct IH as (Hlen & Hrows & Hend).
      cbn [length]. split; [lia|]. split.
      * intros [|k] Hk.
        -- rewrite Nat.add_0_r. cbn [nth]. split; [|assumption].
           f_equal. apply Math_min_R. now apply poisson_cdf_le_1.
        -- cbn [nth]. replace (count + S k)%nat with (S count + k)%nat by lia.
           apply Hrows. lia.
      * replace (count + S (length (cpLoop fuel m (S count) (poisson_below m (S count)))))%nat
          with (S count + length (cpLoop fuel m (S count) (poisson_below m (S count))))%nat
          by lia.
        destruct Hend as [Hend|Hend]; [left; lia|right; exact Hend].
    + rewrite cpLoop_stop by lra. cbn [length]. split; [lia|].
      split; [intros k Hk; lia|]. right. rewrite Nat.add_0_r. lra.
Qed.

Lemma Math_min_upper (x : R) : Math_min x 1 <= x.
Proof.
  change (Math_min x 1) with (if Rltb 1 x then 1 else x).
  destruct (Rltb 1 x) eqn:Hb; [apply Rltb_true in Hb|]; lra.
Qed.

Lemma cpCalc_first (m : R) :
  nth 0 (fst (cpCalc m)) 0 = Math_min (0 + exp (- m) * m ^ 0 / INR (fact 0)) 1.
Proof.
  unfold cpCalc. cbn [fst].
  change (lit 0) with 0. rewrite cpLoop_step by (lra || lia). reflexivity.
Qed.

(** For a mean inter-arrival time of 2 the table is not that of the Poisson
    law of rate 1/2, even in exact arithmetic.  Its first entry is at most
    exp(-2), and P(X <= 0) is exp(-1/2) under that law. *)
Lemma cpCalc_rate_is_not_inverse :
  ~ (poisson_table (1 / 2) (cpCalc 2)
     /\ stops_at (1 / 2) (length (fst (cpCalc 2)))).
Proof.
  intros [[Hlen Hrows] _].
  assert (Hne : (0 < length (fst (cpCalc 2%R)))%nat).
  { unfold cpCalc. cbn [fst]. change (lit 0) with 0.
    rewrite cpLoop_step by (lra || lia). cbn [map length]. lia. }
  destruct (Hrows O Hne) as [_ Hfirst].
  rewrite cpCalc_first in Hfirst.
  unfold poisson_cdf, poisson_pmf in Hfirst. cbn [sum_f_R0 pow fact INR] in Hfirst.
  assert (Hlt : exp (Ropp 2) < exp (- (1 / 2))) by (apply exp_increasing; lra).
  match type of Hfirst with
  | Math_min ?x _ = _ => pose proof (Math_min_upper x) as Hmin
  end.
  rewrite Hfirst in Hmin. lra.
Qed.

(** In exact real arithmetic the computed sums are the cumulative
    probabilities themselves: for every positive mean inter-arrival time [m],
    [cpCalc m] is the cumulative table of the Poisson law whose rate is [m]:
    entry [k] holds P(X < k) and P(X <= k); the table ends with the first
    count whose cumulative probability reaches 0.9999, or after 200
    entries. *)
Lemma cpCalc_in_exact_reals :
  forall m : R,
    0 < m ->
    poisson_table m (cpCalc m)
    /\ stops_at m (length (fst (cpCalc m))).
Proof.
  intros m Hm.
  destruct (@cpLoop_rows m ltac:(lra) 200%nat O eq_refl) as (Hlen & Hrows & Hend).
  cbn [poisson_below Nat.add] in Hlen, Hrows, Hend.
  unfold poisson_table, cpCalc. cbn [fst snd]. change (lit 0) with 0.
  set (rows := cpLoop 200 m 0 0) in *.
  rewrite !length_map. split; [split; [reflexivity|]|].
  - intros k Hk. destruct (Hrows k Hk) as [Hrow _].
    split.
    + change 0 with (snd (0, 0)) at 1. rewrite map_nth, Hrow. reflexivity.
    + change 0 with (fst (0, 0)) at 1. rewrite map_nth, Hrow. reflexivity.
  - assert (Hpos : (1 <= length rows)%nat).
    { destruct (length rows) eqn:Hn; [|lia].
      destruct Hend as [Hend|Hend]; [lia|]. cbn [poisson_below] in Hend. lra. }
    repeat split.
    + exact Hpos.
    + exact Hlen.
    + intros k Hk. now apply Hrows.
    + destruct Hend as [Hend|Hend]; [left; exact Hend|right].
      destruct (length rows) as [|n] eqn:Hn; [lia|].
      cbn [poisson_below] in Hend. replace (S n - 1)%nat with n by lia. exact Hend.
Qed.

End RealTable.


(* ================================================================== *)
(** * Part IV: further properties of the code *)
(* ================================================================== *)

(** ** The engine, whatever the arithmetic is *)

Section EngineAnyCarrier.

Context {N : Number}.
Local Open Scope js_scope.

Lemma serve_servers_any (c : nat) (arrivalTimes : list num) :
  (1 <= c)%nat ->
  forall ends services,
    Forall (fun r => (1 <= assignedServer r <= c)%nat)
           (serve c ends arrivalTimes services).
Proof.
  intros Hc. induction arrivalTimes as [|a rest IH]; intros ends services.
  - constructor.
  - cbn [serve].
    destruct (dispatch c ends a (hd undefined services)) as [row ends'] eqn:Hd.
    constructor; [|apply IH].
    apply (f_equal fst) in Hd. cbn [fst] in Hd. subst row.
    unfold dispatch. cbn [fst assignedServer].
    pose proof (selectServer_le ends c). lia.
Qed.

End EngineAnyCarrier.

(** The parallel arrays [simulateQueue] returns all have [totalCustomers]
    elements, one per arrival time, whatever was handed in as service
    times. *)
Theorem simulateQueue_columns :
  forall (N : Number) (gaps services : list num) (serverCount : nat),
    let result := simulateQueue gaps services serverCount in
    let n := totalCustomers result in
    n = Nat.max 1 (length gaps)
    /\ length (arrivalTimes result) = n
    /\ length (startTimes result) = n
    /\ length (endTimes result) = n
    /\ length (waitTimes result) = n
    /\ length (turnaroundTimes result) = n
    /\ length (responseTimes result) = n
    /\ length (servers result) = n
    /\ length (queueLengths result) = n
    /\ arrivalTimes result = map arrivalTime (customers gaps services serverCount).
Proof.
  intros N gaps services c result n. subst n result.
  unfold simulateQueue.
  cbn [totalCustomers arrivalTimes startTimes endTimes waitTimes turnaroundTimes
       responseTimes servers queueLengths].
  rewrite !length_map. unfold customers.
  rewrite serve_length, serve_arrivalTime, arrivals_length.
  repeat split; reflexivity.
Qed.

(** With at least one server, every record names a server between 1 and
    [serverCount]. *)
Theorem servers_in_range :
  forall (N : Number) (gaps services : list num) (serverCount : nat),
    (1 <= serverCount)%nat ->
    Forall (fun s => (1 <= s <= serverCount)%nat)
           (servers (simulateQueue gaps services serverCount)).
Proof.
  intros N gaps services c Hc. unfold simulateQueue. cbn [servers].
  apply Forall_map. unfold customers. now apply serve_servers_any.
Qed.

Lemma servers_in_range_witness :
  (1 <= 2)%nat
  /\ Forall (fun s => (1 <= s <= 2)%nat)
       (servers (@simulateQueue QNumber [0; 1; 1]%Q [5 # 2; 5 # 2; 1]%Q 2)).
Proof.
  split; [lia|]. apply servers_in_range. lia.
Defined.

(** ** The engine in exact rational arithmetic *)

Section EngineRationals.

Local Existing Instance QNumber.
Local Open Scope Q_scope.

Local Abbreviation roundTo := (@roundTo QNumber) (only parsing).
Local Abbreviation aget := (@aget QNumber) (only parsing).
Local Abbreviation aset := (@aset QNumber) (only parsing).
Local Abbreviation selectServer := (@selectServer QNumber) (only parsing).
Local Abbreviation scanServer := (@scanServer QNumber) (only parsing).
Local Abbreviation queuedCustomers := (@queuedCustomers QNumber) (only parsing).
Local Abbreviation dispatch := (@dispatch QNumber) (only parsing).
Local Abbreviation serve := (@serve QNumber) (only parsing).
Local Abbreviation cumulate := (@cumulate QNumber) (only parsing).
Local Abbreviation arrivals := (@arrivals QNumber) (only parsing).
Local Abbreviation customers := (@customers QNumber) (only parsing).
Local Abbreviation simulateQueue := (@simulateQueue QNumber) (only parsing).
Local Abbreviation Math_max := (@Math_max QNumber) (only parsing).
Local Abbreviation Math_min := (@Math_min QNumber) (only parsing).
Local Abbreviation Math_pow := (@Math_pow QNumber) (only parsing).
Local Abbreviation factorial := (@factorial QNumber) (only parsing).
Local Abbreviation lit := (@lit QNumber) (only parsing).
Local Abbreviation matched := (@matched QNumber) (only parsing).
Local Abbreviation nonnegative := (@nonnegative QNumber) (only parsing).
Local Abbreviation two_decimals := (@two_decimals QNumber) (only parsing).
Local Abbreviation nondecreasing := (@nondecreasing QNumber) (only parsing).
Local Abbreviation timing_ok := (@timing_ok QNumber) (only parsing).
Local Abbreviation records_ok := (@records_ok QNumber) (only parsing).
Local Abbreviation active := (@active QNumber) (only parsing).
Local Abbreviation in_service := (@in_service QNumber) (only parsing).
Local Abbreviation follows_max := (@follows_max QNumber) (only parsing).
Local Abbreviation single_server_fifo := (@single_server_fifo QNumber) (only parsing).
Local Abbreviation erlangSum := (@erlangSum QNumber) (only parsing).
Local Abbreviation calculateMM1Params := (@calculateMM1Params QNumber) (only parsing).
Local Abbreviation calculateMultiServerParams := (@calculateMultiServerParams QNumber) (only parsing).
Local Abbreviation calculateMMcParams := (@calculateMMcParams QNumber) (only parsing).
Local Abbreviation calculateMG1Params := (@calculateMG1Params QNumber) (only parsing).
Local Abbreviation calculateMGCParams := (@calculateMGCParams QNumber) (only parsing).

Ltac to_Q :=
  change (@jle QNumber) with Qle_bool in *;
  change (@jeq QNumber) with Qeq_bool in *;
  change (@jlt QNumber) with Qltb in *;
  change (@jadd QNumber) with Qplus in *;
  change (@jsub QNumber) with Qminus in *;
  change (@jmul QNumber) with Qmult in *;
  change (@jdiv QNumber) with Qdiv in *;
  change lit with inject_Z in *;
  change (@undefined QNumber) with 0 in *;
  change (@num QNumber) with Q in *.

Lemma Qmax_ge_l (a b : Q) : a <= Math_max a b.
Proof.
  destruct (Qmax_cases a b) as [[H ->]|[H ->]];
    [now apply Qlt_le_weak|apply Qle_refl].
Qed.

Lemma Qmax_ge_r (a b : Q) : b <= Math_max a b.
Proof.
  destruct (Qmax_cases a b) as [[H ->]|[H ->]]; [apply Qle_refl|assumption].
Qed.

(** The unrounded wait is the unrounded start less the arrival: the floor at
    0 of [Math.max(0, startTime - arrival)] never acts. *)
Lemma wait_is_difference (arrival free : Q) :
  Math_max (inject_Z 0) (Math_max arrival free - arrival)
  == Math_max arrival free - arrival.
Proof.
  destruct (Qmax_cases (inject_Z 0) (Math_max arrival free - arrival))
    as [[H ->]|[H ->]]; [reflexivity|].
  apply Qle_antisym; [|assumption].
  rewrite <- (Qplus_opp_r arrival). apply Qplus_le_l. apply Qmax_ge_l.
Qed.

Lemma serve_response (c : nat) (arrivalTimes : list Q) :
  forall ends services,
    forallb (fun r => jeq (responseTime r) (turnaroundTime r))
            (serve c ends arrivalTimes services) = true.
Proof.
  induction arrivalTimes as [|a rest IH]; intros ends services.
  - reflexivity.
  - rewrite serve_cons. cbn [forallb]. rewrite IH, andb_true_r.
    unfold dispatch. cbn [fst responseTime turnaroundTime]. to_Q.
    apply Qeq_bool_iff. apply roundTo_compat.
    rewrite wait_is_difference. ring.
Qed.




(** *** Waits and turnarounds as differences *)

Lemma serve_differences (c : nat) (arrivalTimes : list Q) :
  (1 <= c)%nat ->
  forall ends services,
    length ends = c -> Forall grid ends ->
    Forall grid arrivalTimes -> Forall grid services ->
    (length arrivalTimes <= length services)%nat ->
    Forall (fun r => waitTime r == roundTo (startTime r - arrivalTime r) 2
                     /\ turnaroundTime r
                        == roundTo (endTime r - arrivalTime r) 2)
           (serve c ends arrivalTimes services).
Proof.
  intros Hc. induction arrivalTimes as [|a rest IH];
    intros ends services Hlen Hends Harr Hsvc Hcount.
  - constructor.
  - destruct services as [|s services]; [simpl in Hcount; lia|].
    inversion Harr as [|? ? Ha Hrest]. inversion Hsvc as [|? ? Hs Hsvc'].
    destruct (dispatch_timing Hc Hlen Hends Ha Hs) as (_ & Hends' & Hlen').
    rewrite serve_cons. cbn [hd tl]. constructor.
    + pose proof (selectServer_lt ends Hc) as Hi.
      assert (Hfree : grid (aget ends (selectServer ends c))).
      { apply aget_Forall; [assumption|]. to_Q. rewrite Hlen. exact Hi. }
      unfold dispatch.
      cbn [fst waitTime startTime arrivalTime turnaroundTime endTime].
      set (start := Math_max a (aget ends (selectServer ends c))).
      assert (Hstart : grid start) by (apply grid_max; assumption).
      pose proof (wait_is_difference a (aget ends (selectServer ends c))) as Hw.
      fold start in Hw. to_Q. split.
      * apply roundTo_compat. rewrite Hw, (roundTo_fix Hstart). reflexivity.
      * apply roundTo_compat. rewrite (roundTo_fix (grid_plus Hstart Hs)).
        reflexivity.
    + apply IH; auto. simpl in Hcount. lia.
Qed.



(** *** Service begins in arrival order *)

Lemma Qmax_mono (a a' b b' : Q) :
  a <= a' -> b <= b' -> Math_max a b <= Math_max a' b'.
Proof.
  intros Ha Hb. destruct (Qmax_cases a b) as [[_ ->]|[_ ->]].
  - apply (Qle_trans _ _ _ Hb). apply Qmax_ge_r.
  - apply (Qle_trans _ _ _ Ha). apply Qmax_ge_l.
Qed.

Lemma cumulate_lower (gaps : list Q) :
  forall cur,
    Forall (fun x => 0 <= x) gaps ->
    Forall (fun x => roundTo cur 2 <= x) (cumulate cur gaps).
Proof.
  induction gaps as [|g rest IH]; intros cur Hg; cbn [cumulate].
  - constructor.
  - inversion Hg as [|? ? Hg0 Hrest]. to_Q.
    assert (Hstep : roundTo cur 2 <= roundTo (cur + g) 2).
    { apply roundTo_mono. rewrite <- (Qplus_0_r cur) at 1. now apply Qplus_le_r. }
    constructor; [exact Hstep|].
    eapply Forall_impl; [|apply IH; exact Hrest].
    intros y Hy. cbv beta in Hy. now apply (Qle_trans _ _ _ Hstep).
Qed.

Lemma cumulate_sorted (gaps : list Q) :
  forall cur,
    Forall (fun x => 0 <= x) gaps ->
    StronglySorted Qle (cumulate cur gaps).
Proof.
  induction gaps as [|g rest IH]; intros cur Hg; cbn [cumulate].
  - constructor.
  - inversion Hg as [|? ? Hg0 Hrest]. constructor.
    + now apply IH.
    + now apply cumulate_lower.
Qed.

Lemma arrivals_sorted (gaps : list Q) :
  Forall (fun x => 0 <= x) gaps ->
  StronglySorted Qle (arrivals gaps) /\ Forall (fun x => 0 <= x) (arrivals gaps).
Proof.
  intros Hg. unfold arrivals.
  assert (Htl : Forall (fun x => 0 <= x) (tl gaps)).
  { destruct gaps; simpl; [constructor|now inversion Hg]. }
  pose proof (cumulate_lower (inject_Z 0) Htl) as Hlow.
  assert (Hlow' : Forall (fun x => inject_Z 0 <= x) (cumulate (inject_Z 0) (tl gaps))).
  { eapply Forall_impl; [|exact Hlow]. intros x Hx. cbv beta in Hx.
    rewrite (roundTo_fix grid_zero) in Hx. exact Hx. }
  split.
  - constructor; [now apply cumulate_sorted|exact Hlow'].
  - constructor; [apply Qle_refl|exact Hlow'].
Qed.

Lemma sorted_nondecreasing (l : list Q) :
  StronglySorted Qle l -> nondecreasing l = true.
Proof.
  induction 1 as [|a l Hl IH Ha]; [reflexivity|].
  destruct l as [|b l]; [reflexivity|].
  change (nondecreasing (a :: b :: l))
    with (jle a b && nondecreasing (b :: l)).
  rewrite IH, andb_true_r. to_Q. apply Qle_bool_iff. now inversion Ha.
Qed.

Lemma serve_starts_sorted (c : nat) (arrivalTimes : list Q) :
  (1 <= c)%nat ->
  forall ends services (a0 m0 : Q),
    length ends = c -> Forall (fun x => 0 <= x) services ->
    (length arrivalTimes <= length services)%nat ->
    (forall j, (j < c)%nat -> m0 <= aget ends j) ->
    Forall (fun a => a0 <= a) arrivalTimes ->
    StronglySorted Qle arrivalTimes ->
    Forall (fun r => roundTo (Math_max a0 m0) 2 <= startTime r
                     /\ startTime r <= endTime r)
           (serve c ends arrivalTimes services)
    /\ StronglySorted Qle (map startTime (serve c ends arrivalTimes services)).
Proof.
  intros Hc. induction arrivalTimes as [|a rest IH];
    intros ends services a0 m0 Hlen Hsvc Hcount Hm0 Ha0 Hsorted.
  - split; constructor.
  - destruct services as [|s services]; [simpl in Hcount; lia|].
    inversion Hsvc as [|? ? Hs Hsvc']. inversion Ha0 as [|? ? Ha Hrest0].
    inversion Hsorted as [|? ? Hsorted' Hlater]. subst.
    rewrite serve_cons. cbn [hd tl map].
    pose proof (selectServer_lt ends Hc) as Hi.
    destruct (selectServer_earliest_lowest ends Hc) as (_ & Hmin & _).
    set (i := selectServer ends (length ends)) in *.
    assert (Hi' : (i < length ends)%nat) by exact Hi.
    unfold dispatch at 1 2 3. cbn [fst snd startTime endTime]. fold i.
    set (start := Math_max a (aget ends i)).
    assert (Hfree : aget ends i <= start) by apply Qmax_ge_r.
    assert (Hfin : start <= jadd start s).
    { to_Q. rewrite <- (Qplus_0_r start) at 1. now apply Qplus_le_r. }
    assert (Hfirst : roundTo (Math_max a0 m0) 2 <= roundTo start 2).
    { apply roundTo_mono. apply Qmax_mono; [exact Ha|apply Hm0; exact Hi]. }
    destruct (IH (aset ends i (jadd start s)) services a (aget ends i))
      as [Hrows Hsort].
    + rewrite aset_length; [reflexivity|exact Hi'].
    + exact Hsvc'.
    + simpl in Hcount. lia.
    + intros j Hj. destruct (Nat.eq_dec j i) as [->|Hne].
      * rewrite aset_same by exact Hi'. now apply (Qle_trans _ start).
      * rewrite aset_other by assumption. unfold aget. to_Q. now apply Hmin.
    + exact Hlater.
    + exact Hsorted'.
    + fold start in Hrows, Hsort. split.
      * constructor; [split; [exact Hfirst|now apply roundTo_mono]|].
        eapply Forall_impl; [|exact Hrows].
        intros r [Hr Hr']. split; [|exact Hr'].
        now apply (Qle_trans _ _ _ Hfirst).
      * constructor; [exact Hsort|].
        apply Forall_map. eapply Forall_impl; [|exact Hrows].
        intros r [Hr _]. exact Hr.
Qed.

(** With gaps and service times that are not negative, customers begin
    service in the order they arrive, and none ends before it starts. *)
Theorem service_starts_in_arrival_order :
  forall (gaps services : list Q) (serverCount : nat),
    matched gaps services serverCount = true ->
    nonnegative gaps = true ->
    nonnegative services = true ->
    let rows := customers gaps services serverCount in
    nondecreasing (map startTime rows) = true
    /\ Forall (fun r => startTime r <= endTime r) rows.
Proof.
  intros gaps services c Hm Hg Hs rows. subst rows.
  apply matched_inv in Hm. destruct Hm as (Hc & Hgaps & Hlen).
  apply nonnegative_Forall in Hg. apply nonnegative_Forall in Hs.
  destruct (arrivals_sorted Hg) as [Hsorted Hpos].
  unfold customers.
  destruct (@serve_starts_sorted c (arrivals gaps) Hc (repeat (lit 0) c) services
              0 0) as [Hrows Hsort]; auto.
  - apply repeat_length.
  - pose proof (@arrivals_length QNumber gaps) as Hl. to_Q. lia.
  - intros j Hj. unfold aget. rewrite nth_repeat_lt by exact Hj. apply Qle_refl.
  - split; [now apply sorted_nondecreasing|].
    eapply Forall_impl; [|exact Hrows]. intros r [_ Hr]. exact Hr.
Qed.

Lemma service_starts_in_arrival_order_witness :
  matched [0; 1; 1] [5 # 2; 5 # 2; 1] 2 = true
  /\ nonnegative [0; 1; 1] = true
  /\ nonnegative [5 # 2; 5 # 2; 1] = true
  /\ nondecreasing (map startTime (customers [0; 1; 1] [5 # 2; 5 # 2; 1] 2)) = true.
Proof.
  split; [reflexivity|]. split; [reflexivity|]. split; [reflexivity|].
  apply (service_starts_in_arrival_order [0; 1; 1] [5 # 2; 5 # 2; 1] 2);
    reflexivity.
Defined.


(** *** A customer who waits takes over a server the moment it is freed *)

Lemma positive_wait_busy (a e : Q) :
  0 < roundTo (Math_max (inject_Z 0) (Math_max a e - a)) 2 ->
  a < e /\ Math_max a e = e.
Proof.
  intros Hw. destruct (Qmax_cases a e) as [[Hlt Hmax]|[Hge Hmax]].
  - split; assumption.
  - exfalso. apply (Qlt_irrefl 0). apply (Qlt_le_trans _ _ _ Hw).
    rewrite (roundTo_compat (wait_is_difference a e)), Hmax.
    assert (Hz : a - a == inject_Z 0) by (change (inject_Z 0) with 0; ring).
    rewrite (roundTo_compat Hz), (roundTo_fix grid_zero). apply Qle_refl.
Qed.

Lemma serve_takeover (c : nat) (arrivalTimes : list Q) :
  (1 <= c)%nat ->
  forall ends services (past : list (@Customer QNumber)),
    length ends = c ->
    Forall (fun a => 0 <= a) arrivalTimes ->
    (forall j, (j < c)%nat ->
       aget ends j <= 0
       \/ exists r', In r' past /\ assignedServer r' = (j + 1)%nat
                     /\ endTime r' = roundTo (aget ends j) 2) ->
    forall pre r post,
      serve c ends arrivalTimes services = pre ++ r :: post ->
      0 < waitTime r ->
      exists r', In r' (past ++ pre)
                 /\ assignedServer r' = assignedServer r
                 /\ endTime r' = startTime r.
Proof.
  intros Hc. induction arrivalTimes as [|a rest IH];
    intros ends services past Hlen Harr Hinv pre r post Hrows Hwait.
  - destruct pre; discriminate Hrows.
  - inversion Harr as [|? ? Ha Hrest]. subst.
    rewrite serve_cons in Hrows.
    pose proof (selectServer_lt ends Hc) as Hi.
    set (i := selectServer ends (length ends)) in *.
    destruct pre as [|p pre]; cbn [app] in Hrows.
    + injection Hrows as Hr _. subst r.
      unfold dispatch in Hwait |- *.
      cbn [fst waitTime startTime assignedServer] in Hwait |- *. fold i in Hwait |- *.
      to_Q. apply positive_wait_busy in Hwait. destruct Hwait as [Hbusy Hmax].
      change (Math_max a (aget ends i))
        with (if Qltb a (aget ends i) then aget ends i else a).
      rewrite (proj2 (Qltb_true _ _) Hbusy).
      destruct (Hinv i Hi) as [Hzero|(r' & Hin & Hsrv & Hend)].
      * exfalso. apply (Qlt_irrefl a). apply (Qlt_le_trans _ _ _ Hbusy).
        now apply (Qle_trans _ 0).
      * exists r'. rewrite app_nil_r. repeat split; assumption.
    + injection Hrows as Hp Hrows. 
      destruct (IH (snd (dispatch (length ends) ends a (hd 0 services)))
                   (tl services) (past ++ [p])) with (pre := pre) (r := r) (post := post)
        as (r' & Hin & Hsrv & Hend); auto.
      * unfold dispatch. cbn [snd]. now apply aset_length.
      * intros j Hj. unfold dispatch. cbn [snd]. fold i.
        destruct (Nat.eq_dec j i) as [->|Hne].
        -- right. exists p. split; [apply in_or_app; right; now left|].
           subst p. unfold dispatch. cbn [fst assignedServer endTime]. fold i.
           rewrite aset_same by exact Hi. split; reflexivity.
        -- rewrite aset_other by assumption.
           destruct (Hinv j Hj) as [Hzero|(r' & Hin & Hsrv & Hend)];
             [left; exact Hzero|right].
           exists r'. split; [apply in_or_app; now left|]. split; assumption.
      * exists r'. rewrite <- app_assoc in Hin. cbn [app] in Hin.
        repeat split; assumption.
Qed.

(** With gaps that are not negative, a customer with a positive wait starts
    exactly when an earlier customer ends, on the server of that customer. *)
Theorem waiting_customer_takes_over :
  forall (gaps services : list Q) (serverCount : nat),
    matched gaps services serverCount = true ->
    nonnegative gaps = true ->
    forall pre r post,
      customers gaps services serverCount = pre ++ r :: post ->
      0 < waitTime r ->
      exists r', In r' pre
                 /\ assignedServer r' = assignedServer r
                 /\ endTime r' = startTime r.
Proof.
  intros gaps services c Hm Hg pre r post Hrows Hwait.
  apply matched_inv in Hm. destruct Hm as (Hc & Hgaps & Hlen).
  apply nonnegative_Forall in Hg.
  destruct (arrivals_sorted Hg) as [_ Hpos].
  unfold customers in Hrows.
  apply (@serve_takeover c (arrivals gaps) Hc (repeat (lit 0) c) services []
           (repeat_length _ _) Hpos) with (post := post); auto.
  intros j Hj. left. unfold aget. rewrite nth_repeat_lt by exact Hj. apply Qle_refl.
Qed.

Lemma waiting_customer_takes_over_witness :
  matched [0; 1] [5 # 2; 1] 1 = true
  /\ nonnegative [0; 1] = true
  /\ forall pre r post,
       customers [0; 1] [5 # 2; 1] 1 = pre ++ r :: post ->
       0 < waitTime r ->
       exists r', In r' pre
                  /\ assignedServer r' = assignedServer r
                  /\ endTime r' = startTime r.
Proof.
  split; [reflexivity|]. split; [reflexivity|].
  apply (@waiting_customer_takes_over [0; 1] [5 # 2; 1] 1); reflexivity.
Defined.

(** *** The total time *)

Lemma fold_max_spec (rest : list Q) :
  forall e,
    In (fold_left Math_max rest e) (e :: rest)
    /\ Forall (fun x => x <= fold_left Math_max rest e) (e :: rest).
Proof.
  induction rest as [|y rest IH]; intros e; cbn [fold_left].
  - split; [now left|]. constructor; [apply Qle_refl|constructor].
  - destruct (IH (Math_max e y)) as [Hin Hall].
    inversion Hall as [|? ? Hm Hrest]. subst. split.
    + destruct Hin as [Hin|Hin]; [|right; now right].
      destruct (Qmax_cases e y) as [[_ Hmax]|[_ Hmax]]; rewrite Hmax in Hin |- *.
      * right. now left.
      * now left.
    + constructor; [|constructor; [|exact Hrest]].
      * apply (Qle_trans _ (Math_max e y)); [apply Qmax_ge_l|exact Hm].
      * apply (Qle_trans _ (Math_max e y)); [apply Qmax_ge_r|exact Hm].
Qed.

(** [totalTime] is the end time of some customer, and no customer ends
    later. *)
Theorem totalTime_is_last_end :
  forall (gaps services : list Q) (serverCount : nat),
    matched gaps services serverCount = true ->
    let result := simulateQueue gaps services serverCount in
    exists t, totalTime result = Some t
              /\ In t (endTimes result)
              /\ Forall (fun e => e <= t) (endTimes result).
Proof.
  intros gaps services c _ result. subst result.
  unfold simulateQueue. cbn [totalTime endTimes].
  destruct (map endTime (customers gaps services c)) as [|e rest] eqn:Hends.
  - exfalso. apply (f_equal (@length _)) in Hends.
    rewrite length_map in Hends. unfold customers in Hends.
    rewrite serve_length in Hends.
    unfold arrivals in Hends. discriminate Hends.
  - exists (fold_left Math_max rest e). split; [reflexivity|].
    apply fold_max_spec.
Qed.

Lemma totalTime_is_last_end_witness :
  matched [0; 1; 1] [5 # 2; 5 # 2; 1] 2 = true
  /\ exists t, totalTime (simulateQueue [0; 1; 1] [5 # 2; 5 # 2; 1] 2) = Some t
               /\ In t (endTimes (simulateQueue [0; 1; 1] [5 # 2; 5 # 2; 1] 2)).
Proof.
  split; [reflexivity|].
  destruct (@totalTime_is_last_end [0; 1; 1] [5 # 2; 5 # 2; 1] 2 eq_refl)
    as (t & Ht & Hin & _).
  exists t. split; assumption.
Defined.

End EngineRationals.

(** ** The arrival sampler, whatever the arithmetic is *)

Section SamplerAnyCarrier.

Context {N : Number} {E : Exponential N}.

Lemma cpLoop_length (arrivalMean : num) :
  forall fuel count cp, (length (cpLoop fuel arrivalMean count cp) <= fuel)%nat.
Proof.
  induction fuel as [|fuel IH]; intros count cp; cbn [cpLoop].
  - apply Nat.le_refl.
  - destruct (jlt cp (jdiv (lit 9999) (lit 10000)) && (count <? 200)%nat);
      cbn [length]; [|lia].
    specialize (IH (S count)
                  (jadd cp (jdiv (jmul (Math_exp (jneg arrivalMean))
                                       (Math_pow arrivalMean count))
                                 (factorial count)))).
    lia.
Qed.

Lemma lookupGap_upper (cparray : list num) (random : num) :
  forall cplookuparray j,
    (lookupGap j cparray cplookuparray random
     <= Z.max 1 (Z.of_nat (j + length cplookuparray)))%Z.
Proof.
  induction cplookuparray as [|lower rest IH]; intros j; cbn [lookupGap length].
  - lia.
  - destruct (jle lower random && jlt random (aget cparray j)); [lia|].
    specialize (IH (S j)). lia.
Qed.

Lemma drawGaps_upper (cparray cplookuparray : list num) (maxTime : Z)
    (random : nat -> num) (bound : Z) :
  (forall u, (lookupGap 0 cparray cplookuparray u <= bound)%Z) ->
  forall fuel k totalTime gaps final,
    drawGaps fuel cparray cplookuparray maxTime random k totalTime
    = Some (gaps, final) ->
    Forall (fun g => (g <= bound)%Z) gaps.
Proof.
  intros Hb. induction fuel as [|fuel IH]; intros k totalTime gaps final Hrun;
    cbn [drawGaps] in Hrun; destruct (totalTime <? maxTime)%Z.
  - discriminate.
  - injection Hrun as <- _. constructor.
  - destruct (drawGaps fuel cparray cplookuparray maxTime random (S k)
                (totalTime + lookupGap 0 cparray cplookuparray (random k)))
      as [[gs t]|] eqn:Hrest; [|discriminate].
    injection Hrun as <- _. constructor; [apply Hb|].
    eapply IH. exact Hrest.
  - injection Hrun as <- _. constructor.
Qed.

Lemma removelast_length (l : list Z) : length (removelast l) = (length l - 1)%nat.
Proof.
  induction l as [|x l IH]; [reflexivity|].
  destruct l as [|y l]; [reflexivity|].
  change (removelast (x :: y :: l)) with (x :: removelast (y :: l)).
  cbn [length] in *. lia.
Qed.

Lemma total_ge_length (l : list Z) :
  Forall (fun g => (1 <= g)%Z) l -> (Z.of_nat (length l) <= total l)%Z.
Proof.
  induction 1 as [|x l Hx Hl IH]; unfold total in *; cbn [length fold_right]; lia.
Qed.

Lemma generateInterarrivals_returns (mean : num) (maxTime : Z)
    (random : nat -> num) :
  exists l,
    generateInterarrivals mean maxTime random = Some l
    /\ ((0 <= maxTime)%Z -> hd_error l = Some 0%Z).
Proof.
  unfold generateInterarrivals, generateInterarrivalsIn.
  destruct (cpCalc mean) as [cparray cplookuparray].
  destruct (drawGaps_spec cparray cplookuparray maxTime random
              (Z.to_nat maxTime) 0 0%Z) as (gaps & final & Heq & Hall & Hfin & Hmax & Hlast);
    [lia|].
  rewrite Heq. eexists. split; [reflexivity|]. intros Hpos.
  destruct (final >? maxTime)%Z eqn:Hover; [|reflexivity].
  destruct gaps as [|g gs]; [|reflexivity].
  unfold total in Hfin. simpl in Hfin. lia.
Qed.

End SamplerAnyCarrier.

(** [generateInterarrivals] always returns, whatever the horizon, the mean
    and the draws; every gap after the leading 0 is an integer from 1 to 200
    (the table has at most 200 entries), and a horizon of [maxTime] minutes
    gives at most [maxTime + 1] arrivals. *)
Theorem generateInterarrivals_gaps_bounded :
  forall (N : Number) (E : Exponential N) (mean : num) (maxTime : Z)
         (random : nat -> num),
    exists l,
      generateInterarrivals mean maxTime random = Some l
      /\ Forall (fun g => (1 <= g <= 200)%Z) (tl l)
      /\ (Z.of_nat (length l) <= Z.max 0 maxTime + 1)%Z.
Proof.
  intros N E mean maxTime random.
  unfold generateInterarrivals, generateInterarrivalsIn.
  assert (Hbound : forall u,
             (lookupGap 0 (fst (cpCalc mean)) (snd (cpCalc mean)) u <= 200)%Z).
  { intros u.
    pose proof (lookupGap_upper (fst (cpCalc mean)) u (snd (cpCalc mean)) 0) as H.
    assert (Hlen : (length (snd (cpCalc mean)) <= 200)%nat).
    { unfold cpCalc. cbn [snd]. rewrite length_map. apply cpLoop_length. }
    lia. }
  destruct (cpCalc mean) as [cparray cplookuparray]. cbn [fst snd] in Hbound.
  destruct (drawGaps_spec cparray cplookuparray maxTime random
              (Z.to_nat maxTime) 0 0%Z) as (gaps & final & Heq & Hall & Hfin & Hmax & Hlast);
    [lia|].
  pose proof (drawGaps_upper _ _ _ _ Hbound _ _ _ Heq) as Hup.
  rewrite Heq. simpl in Hfin.
  assert (Hboth : Forall (fun g => (1 <= g <= 200)%Z) gaps).
  { rewrite Forall_forall in *. intros g Hg. split; [now apply Hall|now apply Hup]. }
  assert (Hcount : gaps <> [] -> (Z.of_nat (length gaps) <= maxTime)%Z).
  { intros Hne. specialize (Hlast Hne).
    pose proof (total_removelast Hne) as Hsum.
    pose proof (total_ge_length (Forall_removelast Hall)) as Hlen.
    rewrite removelast_length in Hlen.
    assert (0 < length gaps)%nat by (destruct gaps; [congruence|simpl; lia]).
    lia. }
  destruct (Z.gtb_spec final maxTime) as [Hover|Hfit].
  - exists (removelast (0%Z :: gaps)). split; [reflexivity|].
    destruct gaps as [|g gs].
    + cbn [removelast tl length]. split; [constructor|lia].
    + assert (Hne : g :: gs <> []) by discriminate.
      change (removelast (0%Z :: g :: gs)) with (0%Z :: removelast (g :: gs)).
      cbn [tl]. split; [now apply Forall_removelast|].
      change (length (0%Z :: removelast (g :: gs)))
        with (S (length (removelast (g :: gs)))).
      rewrite removelast_length. specialize (Hcount Hne).
      cbn [length] in *. lia.
  - exists (0%Z :: gaps). split; [reflexivity|]. cbn [tl length].
    split; [exact Hboth|].
    destruct gaps as [|g gs]; [simpl; lia|].
    assert (Hne : g :: gs <> []) by discriminate. specialize (Hcount Hne). lia.
Qed.

(** A horizon of 0 gives the single arrival at time 0; below 0 the leading 0
    itself is popped and the sequence is empty.  [simulateQueue] reports one
    customer in both cases. *)
Theorem generateInterarrivals_no_horizon :
  forall (N : Number) (E : Exponential N) (mean : num) (maxTime : Z)
         (random : nat -> num) (services : list num) (serverCount : nat),
    (maxTime <= 0)%Z ->
    generateInterarrivals mean maxTime random
    = Some (if (maxTime <? 0)%Z then [] else [0%Z])
    /\ forall l, generateInterarrivals mean maxTime random = Some l ->
         totalCustomers (simulateQueue (map lit l) services serverCount) = 1%nat.
Proof.
  intros N E mean maxTime random services c Hle.
  assert (Hrun : generateInterarrivals mean maxTime random
                 = Some (if (maxTime <? 0)%Z then [] else [0%Z])).
  { unfold generateInterarrivals, generateInterarrivalsIn.
    destruct (cpCalc mean) as [cparray cplookuparray].
    replace (Z.to_nat maxTime) with O by lia. cbn [drawGaps].
    destruct (Z.ltb_spec 0 maxTime) as [H|_]; [lia|].
    destruct (Z.gtb_spec 0 maxTime) as [Hneg|Hzero];
      destruct (Z.ltb_spec maxTime 0); try lia; reflexivity. }
  split; [exact Hrun|].
  intros l Hl. rewrite Hrun in Hl. injection Hl as <-.
  unfold simulateQueue. cbn [totalCustomers]. rewrite arrivals_length.
  destruct (maxTime <? 0)%Z; reflexivity.
Qed.

Lemma generateInterarrivals_no_horizon_witness :
  (0 <= 0)%Z
  /\ @generateInterarrivals RNumber RExponential 2%R 0 (fun _ => (1 / 2)%R)
     = Some [0%Z].
Proof.
  split; [lia|].
  apply (@generateInterarrivals_no_horizon RNumber RExponential 2%R 0
           (fun _ => (1 / 2)%R) [] 1%nat). lia.
Defined.

(** ** The pipeline, whatever the arithmetic is *)

(** [runSimulation] always comes to an end.  It stops on an unstable system
    exactly when the utilization it computes is not below 1; otherwise, for a
    horizon that is not negative and at least one server, it hands
    [simulateQueue] a first arrival and one service time for every gap, so
    that no service time is read past the end of the array. *)
Theorem runSimulation_well_formed :
  forall (N : Number) (E : Exponential N) (L : Logarithm N)
         (arrivalMean serviceMean : num) (simulationTime : Z) (c : nat)
         (random : nat -> num),
    (0 <= simulationTime)%Z -> (1 <= c)%nat ->
    exists outcome,
      runSimulation arrivalMean serviceMean simulationTime c random = Some outcome
      /\ match outcome with
         | Unstable rho =>
             rho = utilization arrivalMean serviceMean c
             /\ jle (lit 1) rho = true
         | Completed result _ =>
             jle (lit 1) (utilization arrivalMean serviceMean c) = false
             /\ matched (interarrivals result) (serviceTimes result) c = true
             /\ totalCustomers result = length (interarrivals result)
         end.
Proof.
  intros N E L arrivalMean serviceMean T c random HT Hc.
  unfold runSimulation.
  destruct (jle (lit 1) (utilization arrivalMean serviceMean c)) eqn:Hrho.
  - eexists. split; [reflexivity|]. split; [reflexivity|exact Hrho].
  - destruct (generateInterarrivals_returns arrivalMean T random)
      as (l & Hrun & Hhead).
    rewrite Hrun. eexists. split; [reflexivity|].
    split; [reflexivity|].
    unfold simulateQueue. cbn [interarrivals serviceTimes totalCustomers].
    unfold matched, drawServiceTimes.
    rewrite arrivals_length, !length_map, length_seq.
    specialize (Hhead HT).
    destruct l as [|g l]; [discriminate|]. cbn [length].
    rewrite Nat.eqb_refl, andb_true_r.
    split; [|reflexivity].
    apply andb_true_iff. split; apply Nat.leb_le; lia.
Qed.

Lemma runSimulation_well_formed_witness :
  (0 <= 3)%Z /\ (1 <= 1)%nat
  /\ exists outcome,
       @runSimulation RNumber RExponential RLogarithm 2%R 1%R 3 1
         (fun _ => (1 / 2)%R) = Some outcome.
Proof.
  split; [lia|]. split; [lia|].
  destruct (@runSimulation_well_formed RNumber RExponential RLogarithm 2%R 1%R 3 1%nat
              (fun _ => (1 / 2)%R) ltac:(lia) ltac:(lia)) as (outcome & Hrun & _).
  exists outcome. exact Hrun.
Defined.

(** ** The service-time sampler *)

Section SamplerReals.

Local Existing Instance RNumber.
Local Existing Instance RLogarithm.
Local Open Scope R_scope.

Local Abbreviation exponentialRandom :=
  (@exponentialRandom RNumber RLogarithm) (only parsing).

Lemma ln_nonpositive (x : R) : 0 < x -> x <= 1 -> ln x <= 0.
Proof.
  intros H0 [Hlt | ->].
  - left. rewrite <- ln_1. now apply ln_increasing.
  - rewrite ln_1. apply Rle_refl.
Qed.

Lemma ln_monotone (x y : R) : 0 < x -> x <= y -> ln x <= ln y.
Proof.
  intros H0 [Hlt | ->]; [left; now apply ln_increasing|apply Rle_refl].
Qed.

(** For a positive mean, [exponentialRandom] is 0 at the draw 0, never
    negative on a draw of [[0, 1)], and never smaller on a larger draw: the
    service times it gives are not negative. *)
Theorem exponentialRandom_not_negative :
  forall (mean u u' : R),
    0 < mean -> 0 <= u -> u <= u' -> u' < 1 ->
    exponentialRandom mean 0 = 0
    /\ 0 <= exponentialRandom mean u
    /\ exponentialRandom mean u <= exponentialRandom mean u'.
Proof.
  intros mean u u' Hmean Hu0 Huu' Hu1.
  change (exponentialRandom mean 0) with (- ln (1 - 0) * mean).
  change (exponentialRandom mean u) with (- ln (1 - u) * mean).
  change (exponentialRandom mean u') with (- ln (1 - u') * mean).
  assert (Hln : ln (1 - u) <= 0) by (apply ln_nonpositive; lra).
  assert (Hmono : ln (1 - u') <= ln (1 - u)) by (apply ln_monotone; lra).
  split; [|split].
  - change (@num RNumber) with R. replace (1 - 0) with 1 by lra.
    rewrite ln_1. lra.
  - nra.
  - nra.
Qed.

Lemma exponentialRandom_not_negative_witness :
  0 < 3 /\ 0 <= 1 / 4 /\ 1 / 4 <= 1 / 2 /\ 1 / 2 < 1
  /\ 0 <= exponentialRandom 3 (1 / 4)
  /\ exponentialRandom 3 (1 / 4) <= exponentialRandom 3 (1 / 2).
Proof.
  split; [lra|]. split; [lra|]. split; [lra|]. split; [lra|].
  apply (@exponentialRandom_not_negative 3 (1 / 4) (1 / 2)); lra.
Defined.

End SamplerReals.

(** ** The calculators in exact rational arithmetic *)

Section CalculatorRationals.

Local Existing Instance QNumber.
Local Open Scope Q_scope.

Local Abbreviation Math_pow := (@Math_pow QNumber) (only parsing).
Local Abbreviation factorial := (@factorial QNumber) (only parsing).
Local Abbreviation lit := (@lit QNumber) (only parsing).
Local Abbreviation erlangSum := (@erlangSum QNumber) (only parsing).
Local Abbreviation calculateMM1Params := (@calculateMM1Params QNumber) (only parsing).
Local Abbreviation calculateMultiServerParams := (@calculateMultiServerParams QNumber) (only parsing).
Local Abbreviation calculateMMcParams := (@calculateMMcParams QNumber) (only parsing).
Local Abbreviation calculateMG1Params := (@calculateMG1Params QNumber) (only parsing).
Local Abbreviation calculateMGCParams := (@calculateMGCParams QNumber) (only parsing).

(** *** The Erlang-C values are probabilities and waits *)

Lemma Qfact_positive (n : nat) : 0 < Qfact n.
Proof.
  unfold Qfact. change 0 with (inject_Z 0). rewrite <- Zlt_Qlt.
  pose proof (lt_O_fact n). lia.
Qed.

Lemma Qsum_at_least_first (f : nat -> Q) (n : nat) :
  (forall i, 0 <= f i) -> f O <= Qsum f (S n).
Proof.
  intros Hf. induction n as [|n IH].
  - cbn [Qsum]. rewrite Qplus_0_l. apply Qle_refl.
  - change (Qsum f (S (S n))) with (Qsum f (S n) + f (S n)).
    rewrite <- (Qplus_0_r (f O)). apply Qplus_le_compat; [exact IH|apply Hf].
Qed.

(** For lambda, mu positive, at least one server and rho < 1, both Erlang-C
    calculators return the same values: a p0 that is a probability, an Lq and
    a Wq that are not negative, and a Ws that is at least the mean service
    time 1 / mu. *)
Theorem erlangC_outputs_in_range :
  forall (lambda mu : Q) (c : nat),
    0 < lambda -> 0 < mu -> (1 <= c)%nat -> erlang_rho lambda mu c < 1 ->
    let p := calculateMMcParams lambda mu c in
    calculateMultiServerParams lambda mu c = p
    /\ (exists v, p0 p = Some v /\ 0 <= v /\ v <= 1)
    /\ 0 <= lq p /\ 0 <= wq p /\ 1 / mu <= ws p.
Proof.
  intros lambda mu c Hl Hmu Hc Hrho p. subst p.
  destruct (erlangC_fields lambda mu c)
    as (Hsame & _ & (v & Hv & Hp0) & Hlq & Hwq & Hws & _).
  cbv zeta in Hsame. split; [exact Hsame|].
  cbv zeta in Hv, Hp0, Hlq, Hwq, Hws.
  assert (Ha : 0 < lambda / mu).
  { apply Qlt_shift_div_l; [exact Hmu|]. now rewrite Qmult_0_l. }
  assert (Hcq : 0 < inject_Z (Z.of_nat c)).
  { change 0 with (inject_Z 0). rewrite <- Zlt_Qlt. lia. }
  assert (Hr : 0 < erlang_rho lambda mu c).
  { unfold erlang_rho. apply Qlt_shift_div_l;
      [now apply Qmult_lt_0_compat|]. now rewrite Qmult_0_l. }
  assert (Hd : 0 < 1 - erlang_rho lambda mu c).
  { rewrite <- (Qplus_opp_r (erlang_rho lambda mu c)). unfold Qminus.
    now apply Qplus_lt_l. }
  assert (Hterm : forall n, 0 < (lambda / mu) ^ Z.of_nat n / Qfact n).
  { intros n. apply Qlt_shift_div_l; [apply Qfact_positive|].
    rewrite Qmult_0_l. now apply Qpower_0_lt. }
  assert (Htail : 0 < (lambda / mu) ^ Z.of_nat c
                      / (Qfact c * (1 - erlang_rho lambda mu c))).
  { apply Qlt_shift_div_l;
      [apply Qmult_lt_0_compat; [apply Qfact_positive|exact Hd]|].
    rewrite Qmult_0_l. now apply Qpower_0_lt. }
  assert (Hsum : 1 <= Qsum (fun n => (lambda / mu) ^ Z.of_nat n / Qfact n) c).
  { destruct c as [|c]; [lia|].
    apply (Qle_trans _ ((lambda / mu) ^ Z.of_nat 0 / Qfact 0)).
    - apply Qle_refl.
    - apply (Qsum_at_least_first (fun n => (lambda / mu) ^ Z.of_nat n / Qfact n)).
      intros i. apply Qlt_le_weak. apply Hterm. }
  set (D := Qsum (fun n => (lambda / mu) ^ Z.of_nat n / Qfact n) c
            + (lambda / mu) ^ Z.of_nat c
              / (Qfact c * (1 - erlang_rho lambda mu c))) in *.
  assert (HD : 1 <= D).
  { subst D. rewrite <- (Qplus_0_r 1).
    apply Qplus_le_compat; [exact Hsum|now apply Qlt_le_weak]. }
  assert (HD0 : 0 < D) by (apply (Qlt_le_trans _ 1); [reflexivity|exact HD]).
  assert (Hp : 0 < erlang_p0 lambda mu c /\ erlang_p0 lambda mu c <= 1).
  { unfold erlang_p0. fold D. split; [now apply Qinv_lt_0_compat|].
    apply Qle_shift_inv_r; [exact HD0|]. now rewrite Qmult_1_l. }
  assert (HLq : 0 < erlang_Lq lambda mu c).
  { unfold erlang_Lq. apply Qlt_shift_div_l.
    - apply Qmult_lt_0_compat; [apply Qfact_positive|].
      now apply Qpower_0_lt.
    - rewrite Qmult_0_l.
      apply Qmult_lt_0_compat; [apply Qmult_lt_0_compat|exact Hr];
        [apply Hp|now apply Qpower_0_lt]. }
  assert (HWq : 0 < erlang_Wq lambda mu c).
  { unfold erlang_Wq. apply Qlt_shift_div_l; [exact Hl|]. now rewrite Qmult_0_l. }
  split.
  { exists v. split; [exact Hv|]. rewrite Hp0.
    split; [apply Qlt_le_weak|]; apply Hp. }
  rewrite Hlq, Hwq, Hws. split; [now apply Qlt_le_weak|].
  split; [now apply Qlt_le_weak|].
  rewrite <- (Qplus_0_l (1 / mu)) at 1. apply Qplus_le_l.
  now apply Qlt_le_weak.
Qed.

Lemma erlangC_outputs_in_range_witness :
  0 < 3 /\ 0 < 2 /\ (1 <= 2)%nat /\ erlang_rho 3 2 2%nat < 1
  /\ 0 <= lq (calculateMMcParams 3 2 2%nat).
Proof.
  split; [reflexivity|]. split; [reflexivity|]. split; [lia|]. split; [reflexivity|].
  apply (@erlangC_outputs_in_range 3 2 2%nat); try reflexivity. lia.
Defined.

End CalculatorRationals.

(** ** The statistics, whatever the arithmetic is *)

Section StatisticsAnyCarrier.

Context {N : Number}.
Local Open Scope js_scope.

Lemma credit_length (serverStats : list ServerStat) :
  forall serverIndex service,
    length (credit serverStats serverIndex service) = length serverStats.
Proof.
  induction serverStats as [|st rest IH]; intros [|k] service; simpl;
    try reflexivity.
  now rewrite IH.
Qed.

Lemma credit_count (serverStats : list ServerStat) :
  forall serverIndex service,
    (serverIndex < length serverStats)%nat ->
    list_sum (map customerCount (credit serverStats serverIndex service))
    = S (list_sum (map customerCount serverStats)).
Proof.
  induction serverStats as [|st rest IH]; intros [|k] service Hk; simpl in *;
    try lia.
  rewrite IH by lia. lia.
Qed.

Lemma tally_in_range (serverCount : nat) (serverStats : list ServerStat)
    (server : nat) (rest : list nat) (serviceTimes : list num) :
  (1 <= server <= serverCount)%nat ->
  tally serverCount serverStats (server :: rest) serviceTimes
  = tally serverCount
      (credit serverStats (server - 1) (hd undefined serviceTimes))
      rest (tl serviceTimes).
Proof.
  intros Hs. cbn [tally].
  replace (0 <=? Z.of_nat server - 1)%Z with true
    by (symmetry; apply Z.leb_le; lia).
  replace (Z.of_nat server - 1 <? Z.of_nat serverCount)%Z with true
    by (symmetry; apply Z.ltb_lt; lia).
  cbn [andb]. replace (Z.to_nat (Z.of_nat server - 1)) with (server - 1)%nat by lia.
  reflexivity.
Qed.

Lemma tally_length (serverCount : nat) (servers : list nat) :
  forall serverStats serviceTimes,
    length (tally serverCount serverStats servers serviceTimes)
    = length serverStats.
Proof.
  induction servers as [|server rest IH]; intros serverStats serviceTimes.
  - reflexivity.
  - cbn [tally]. rewrite IH.
    destruct ((0 <=? Z.of_nat server - 1)%Z
              && (Z.of_nat server - 1 <? Z.of_nat serverCount)%Z);
      [apply credit_length|reflexivity].
Qed.

Lemma tally_count (serverCount : nat) (servers : list nat) :
  Forall (fun s => (1 <= s <= serverCount)%nat) servers ->
  forall serverStats serviceTimes,
    length serverStats = serverCount ->
    list_sum (map customerCount
                (tally serverCount serverStats servers serviceTimes))
    = (list_sum (map customerCount serverStats) + length servers)%nat.
Proof.
  induction 1 as [|server rest Hs _ IH]; intros serverStats serviceTimes Hlen.
  - cbn [tally length]. lia.
  - rewrite (tally_in_range _ _ _ Hs).
    rewrite IH by (rewrite credit_length; exact Hlen).
    rewrite credit_count by lia. cbn [length]. lia.
Qed.

Lemma fresh_stats_count (serverCount : nat) (st : ServerStat) :
  customerCount st = O ->
  list_sum (map customerCount (repeat st serverCount)) = O.
Proof.
  intros H. induction serverCount as [|n IH]; simpl; [reflexivity|].
  rewrite H, IH. reflexivity.
Qed.

End StatisticsAnyCarrier.

(** With at least one server, [updateServerStats] draws one card per server,
    and the customer counts on the cards add up to the number of customers:
    every customer is counted on exactly one card. *)
Theorem every_customer_on_one_card :
  forall (N : Number) (gaps services : list num) (serverCount : nat),
    (1 <= serverCount)%nat ->
    let simulation := simulateQueue gaps services serverCount in
    exists cards,
      updateServerStats simulation serverCount = Some cards
      /\ length cards = serverCount
      /\ list_sum (map card_customers cards) = totalCustomers simulation.
Proof.
  intros N gaps services c Hc simulation. subst simulation.
  unfold updateServerStats, simulateQueue.
  cbn [totalTime servers serviceTimes totalCustomers].
  destruct (map endTime (customers gaps services c)) as [|e rest] eqn:Hends.
  - exfalso. apply (f_equal (@length _)) in Hends.
    rewrite length_map in Hends. unfold customers in Hends.
    rewrite serve_length in Hends. unfold arrivals in Hends. discriminate Hends.
  - eexists. split; [reflexivity|].
    rewrite length_map, tally_length, repeat_length. split; [reflexivity|].
    rewrite map_map. cbn [card_customers].
    rewrite tally_count.
    + rewrite fresh_stats_count by reflexivity.
      rewrite length_map. unfold customers. rewrite serve_length. reflexivity.
    + apply Forall_map. unfold customers. now apply serve_servers_any.
    + apply repeat_length.
Qed.

Lemma every_customer_on_one_card_witness :
  (1 <= 2)%nat
  /\ exists cards,
       updateServerStats (@simulateQueue QNumber [0; 1; 1]%Q [5 # 2; 5 # 2; 1]%Q 2) 2
       = Some cards
       /\ length cards = 2%nat
       /\ list_sum (map card_customers cards) = 3%nat.
Proof.
  split; [lia|].
  apply (@every_customer_on_one_card QNumber [0; 1; 1]%Q [5 # 2; 5 # 2; 1]%Q 2).
  lia.
Defined.

(** ** The statistics in exact rational arithmetic *)

Section StatisticsRationals.

Local Existing Instance QNumber.
Local Open Scope Q_scope.

Local Abbreviation aget := (@aget QNumber) (only parsing).
Local Abbreviation aset := (@aset QNumber) (only parsing).
Local Abbreviation selectServer := (@selectServer QNumber) (only parsing).
Local Abbreviation dispatch := (@dispatch QNumber) (only parsing).
Local Abbreviation serve := (@serve QNumber) (only parsing).
Local Abbreviation arrivals := (@arrivals QNumber) (only parsing).
Local Abbreviation customers := (@customers QNumber) (only parsing).
Local Abbreviation simulateQueue := (@simulateQueue QNumber) (only parsing).
Local Abbreviation Math_max := (@Math_max QNumber) (only parsing).
Local Abbreviation matched := (@matched QNumber) (only parsing).
Local Abbreviation nonnegative := (@nonnegative QNumber) (only parsing).
Local Abbreviation two_decimals := (@two_decimals QNumber) (only parsing).
Local Abbreviation timing_ok := (@timing_ok QNumber) (only parsing).
Local Abbreviation reduceSum := (@reduceSum QNumber) (only parsing).
Local Abbreviation updateStats := (@updateStats QNumber) (only parsing).
Local Abbreviation updateServerStats := (@updateServerStats QNumber) (only parsing).
Local Abbreviation tally := (@tally QNumber) (only parsing).
Local Abbreviation credit := (@credit QNumber) (only parsing).
Local Abbreviation orOne := (@orOne QNumber) (only parsing).
Local Abbreviation ServerStat := (@ServerStat QNumber) (only parsing).
Local Abbreviation Customer := (@Customer QNumber) (only parsing).

Ltac stat_Q :=
  change (@jle QNumber) with Qle_bool in *;
  change (@jeq QNumber) with Qeq_bool in *;
  change (@jlt QNumber) with Qltb in *;
  change (@jadd QNumber) with Qplus in *;
  change (@jsub QNumber) with Qminus in *;
  change (@jmul QNumber) with Qmult in *;
  change (@jdiv QNumber) with Qdiv in *;
  change lit with inject_Z in *;
  change (@undefined QNumber) with 0 in *;
  change (@num QNumber) with Q in *.

(** *** The averages of [updateStats] *)

Lemma reduceSum_from (l : list Q) :
  forall acc, fold_left Qplus l acc == acc + fold_left Qplus l 0.
Proof.
  induction l as [|x l IH]; intros acc; cbn [fold_left].
  - ring.
  - rewrite (IH (acc + x)), (IH (0 + x)). ring.
Qed.

Lemma reduceSum_cons (x : Q) (l : list Q) :
  reduceSum (x :: l) == x + reduceSum l.
Proof.
  unfold reduceSum. stat_Q. change (inject_Z 0) with 0. cbn [fold_left].
  rewrite reduceSum_from. ring.
Qed.

Lemma reduceSum_nonneg (l : list Q) :
  Forall (fun x => 0 <= x) l -> 0 <= reduceSum l.
Proof.
  induction 1 as [|x l Hx _ IH].
  - apply Qle_refl.
  - rewrite reduceSum_cons. rewrite <- (Qplus_0_r 0).
    now apply Qplus_le_compat.
Qed.

Lemma reduceSum_split (rows : list Customer) :
  Forall (fun r => turnaroundTime r == waitTime r + serviceTime r) rows ->
  reduceSum (map turnaroundTime rows)
  == reduceSum (map waitTime rows) + reduceSum (map serviceTime rows).
Proof.
  induction 1 as [|r rows Hr _ IH]; cbn [map].
  - reflexivity.
  - rewrite !reduceSum_cons, IH, Hr. ring.
Qed.

Lemma timing_ok_inv (r : Customer) :
  timing_ok r = true ->
  0 <= waitTime r /\ turnaroundTime r == waitTime r + serviceTime r.
Proof.
  unfold timing_ok. stat_Q.
  rewrite !andb_true_iff, !Qle_bool_iff, !Qeq_bool_iff. tauto.
Qed.

(** For well-formed input whose service times have two decimals and are not
    negative, [updateStats] counts one arrival per gap, and the average wait
    it shows is not negative and not above the average turnaround. *)
Theorem average_wait_within_turnaround :
  forall (gaps services : list Q) (serverCount : nat),
    matched gaps services serverCount = true ->
    nonnegative services = true ->
    two_decimals services = true ->
    let stats := updateStats (simulateQueue gaps services serverCount) in
    stat_arrivals stats = length gaps
    /\ 0 <= stat_wait stats
    /\ stat_wait stats <= stat_turnaround stats.
Proof.
  intros gaps services c Hm Hpos Hs stats. subst stats.
  apply matched_inv in Hm. destruct Hm as (Hc & Hgaps & Hlen).
  apply two_decimals_Forall in Hs. apply nonnegative_Forall in Hpos.
  pose proof (@arrivals_length QNumber gaps) as Hn. stat_Q.
  replace (Nat.max 1 (length gaps)) with (length gaps) in Hn by lia.
  assert (Hrows : forallb timing_ok (customers gaps services c) = true).
  { unfold customers. apply serve_timing; auto.
    - apply repeat_length.
    - apply repeat_Forall. apply grid_zero.
    - apply arrivals_grid.
    - stat_Q. lia. }
  rewrite forallb_forall in Hrows.
  assert (Hsvc : map serviceTime (customers gaps services c) = services).
  { unfold customers. apply serve_serviceTime. stat_Q. lia. }
  unfold updateStats, simulateQueue.
  cbn [totalCustomers waitTimes turnaroundTimes stat_arrivals stat_wait
       stat_turnaround].
  stat_Q. rewrite Hn.
  set (rows := customers gaps services c) in *.
  assert (Hcount : 0 < inject_Z (Z.of_nat (length gaps))).
  { change 0 with (inject_Z 0). rewrite <- Zlt_Qlt. lia. }
  assert (Hwait : 0 <= reduceSum (map waitTime rows)).
  { apply reduceSum_nonneg. apply Forall_map. apply Forall_forall.
    intros r Hr. now apply timing_ok_inv, Hrows. }
  assert (Hsum : reduceSum (map waitTime rows)
                 <= reduceSum (map turnaroundTime rows)).
  { rewrite reduceSum_split.
    - stat_Q. rewrite Hsvc.
      rewrite <- (Qplus_0_r (reduceSum (map waitTime rows))) at 1.
      apply Qplus_le_r. now apply reduceSum_nonneg.
    - apply Forall_forall. intros r Hr. now apply timing_ok_inv, Hrows. }
  split; [reflexivity|]. split.
  - apply Qle_shift_div_l; [exact Hcount|]. now rewrite Qmult_0_l.
  - unfold Qdiv. apply Qmult_le_compat_r; [exact Hsum|].
    apply Qlt_le_weak. now apply Qinv_lt_0_compat.
Qed.

Lemma average_wait_within_turnaround_witness :
  matched [0; 1; 1] [5 # 2; 5 # 2; 1] 1 = true
  /\ nonnegative [5 # 2; 5 # 2; 1] = true
  /\ two_decimals [5 # 2; 5 # 2; 1] = true
  /\ 0 <= stat_wait (updateStats (simulateQueue [0; 1; 1] [5 # 2; 5 # 2; 1] 1))
  /\ stat_wait (updateStats (simulateQueue [0; 1; 1] [5 # 2; 5 # 2; 1] 1))
     <= stat_turnaround
          (updateStats (simulateQueue [0; 1; 1] [5 # 2; 5 # 2; 1] 1)).
Proof.
  split; [reflexivity|]. split; [reflexivity|]. split; [reflexivity|].
  apply (@average_wait_within_turnaround
           [0; 1; 1] [5 # 2; 5 # 2; 1] 1 eq_refl eq_refl eq_refl).
Defined.

End StatisticsRationals.

(** ** The utilization warning *)

Section ValidationRationals.

Local Existing Instance QNumber.
Local Open Scope Q_scope.

Local Abbreviation utilization := (@utilization QNumber) (only parsing).
Local Abbreviation falsy := (@falsy QNumber) (only parsing).
Local Abbreviation shownUtilization := (@shownUtilization QNumber) (only parsing).
Local Abbreviation validateUtilization := (@validateUtilization QNumber) (only parsing).
Local Abbreviation validateUtilizationGamma :=
  (@validateUtilizationGamma QNumber) (only parsing).

Ltac val_Q :=
  change (@jle QNumber) with Qle_bool in *;
  change (@jeq QNumber) with Qeq_bool in *;
  change (@jlt QNumber) with Qltb in *;
  change (@jadd QNumber) with Qplus in *;
  change (@jsub QNumber) with Qminus in *;
  change (@jmul QNumber) with Qmult in *;
  change (@jdiv QNumber) with Qdiv in *;
  change lit with inject_Z in *;
  change (@num QNumber) with Q in *.

Lemma falsy_positive (x : Q) : 0 < x -> falsy x = false.
Proof.
  intros Hx. unfold falsy. val_Q.
  replace (Qeq_bool x (inject_Z 0)) with false.
  - replace (Qeq_bool x x) with true; [reflexivity|].
    symmetry. apply Qeq_bool_iff. reflexivity.
  - symmetry. apply not_true_is_false. intros E. apply Qeq_bool_iff in E.
    rewrite E in Hx. discriminate Hx.
Qed.

Lemma shownUtilization_cases (u : Q) :
  shownUtilization u <= 99
  /\ (1 <= u -> shownUtilization u = 99).
Proof.
  unfold shownUtilization. cbn [Math_min Math_round QNumber]. val_Q.
  change (inject_Z 99) with 99. change (inject_Z 100) with 100.
  destruct (Qltb (inject_Z (Qfloor (u * 100 + (1 # 2)))) 99) eqn:Hlt.
  - split; [apply Qlt_le_weak; now apply Qltb_true|].
    intros Hu. exfalso. apply Qltb_true in Hlt.
    assert (H100 : (100 <= Qfloor (u * 100 + (1 # 2)))%Z).
    { change 100%Z with (Qfloor 100).
      apply Qfloor_resp_le.
      apply (Qle_trans _ (1 * 100 + (1 # 2))); [discriminate|].
      apply Qplus_le_l. apply Qmult_le_compat_r; [exact Hu|discriminate]. }
    change 99 with (inject_Z 99) in Hlt. rewrite <- Zlt_Qlt in Hlt. lia.
  - split; [apply Qle_refl|reflexivity].
Qed.



End ValidationRationals.

(** ** The utilities in binary64 *)

Lemma factZ_fact (n : nat) : factZ n = Z.of_nat (fact n).
Proof.
  induction n as [|n IH]; [reflexivity|].
  change (factZ (S n)) with (Z.of_nat (S n) * factZ n)%Z.
  change (fact (S n)) with (S n * fact n)%nat.
  rewrite IH. lia.
Qed.

(** In binary64 [factorial(n)] is n! exactly up to n = 22, which covers every
    server count the calculators are given in practice; 23! is already
    rounded, and from 171 on the product is [Infinity]. *)
Theorem factorial_exact_up_to_22 :
  (forall n : nat,
      (n <= 22)%nat ->
      exists q, F64.toQ (@factorial F64Number n) = Some q
                /\ (q == inject_Z (Z.of_nat (fact n)))%Q)
  /\ (exists q, F64.toQ (@factorial F64Number 23) = Some q
                /\ ~ (q == inject_Z (factZ 23))%Q)
  /\ @factorial F64Number 171 = infinity.
Proof.
  split; [|split].
  - intros n Hn.
    do 23 (destruct n as [|n];
           [eexists; split;
            [vm_compute; reflexivity
            |rewrite <- factZ_fact; vm_compute; reflexivity]|]).
    lia.
  - eexists. split; [vm_compute; reflexivity|]. vm_compute. discriminate.
  - vm_compute. reflexivity.
Qed.

Lemma factorial_exact_up_to_22_witness :
  (5 <= 22)%nat
  /\ exists q, F64.toQ (@factorial F64Number 5) = Some q
               /\ (q == inject_Z (Z.of_nat (fact 5)))%Q.
Proof.
  split; [lia|]. apply (proj1 factorial_exact_up_to_22 5%nat). lia.
Defined.
